(** * The patient / proposal / result chaincode of [simple-contract.go]

    A shallow embedding of [chaincode/contract-tutorial/simple-contract.go]
    and of the library calls it makes, followed by the properties of the
    contract that the specification states.

    The functions of the contract that are embedded are [CreatePatient],
    [FindPatient], [AllPatients], [UpdatePatient], [CreateProposal],
    [FindProposal], [CreateResult] and [FindResult].

    Go values are modelled as follows.
    - A Go [string] and a Go [[]byte] are a Rocq [string]: a sequence of
      bytes (type [ascii]); nothing assumes that it is valid UTF-8.
    - A byte or a rune as a number is an [N].
    - The world state behind [ctx.GetStub()] is a [gmap string string]
      from keys to stored values; a key that is absent reads as [nil].
      Which reads and writes fail, and with which error, is a parameter.
    - The iterator of a range query is the list of what its calls of
      [Next] return; which entries a range query delivers is a parameter.
    - A Go [error] is its message, a [string]; [nil] is [None].
    - The two functions of package [phe] are parameters of the contract.
    - [encoding/json], [unicode/utf8], [unicode/utf16], [strings] and
      [regexp] are modelled as far as the contract uses them. *)

From Stdlib Require Import NArith Ascii String List Lia Bool.
From stdpp Require Import base option gmap strings list fin_maps sorting.

Local Open Scope N_scope.

(** ** Bytes and slices *)

Definition byte_of (c : ascii) : N := N_of_ascii c.
Definition of_byte (b : N) : ascii := ascii_of_N b.

(** [byte(x)]: the conversion of a wider integer to a byte keeps the low
    eight bits. *)
Definition to_byte (x : N) : N := x mod 256.

(** The quotation mark, which a Rocq string literal cannot hold. *)
Definition quote : ascii := "034"%char.

(** [s[n:]] for [n <= len(s)]. *)
Fixpoint slice_from (n : nat) (s : string) : string :=
  match n, s with
  | O, _ => s
  | S n', String _ t => slice_from n' t
  | S _, EmptyString => EmptyString
  end.

(** [s[:n]] for [n <= len(s)]. *)
Fixpoint slice_to (n : nat) (s : string) : string :=
  match n, s with
  | O, _ => EmptyString
  | S n', String c t => String c (slice_to n' t)
  | S _, EmptyString => EmptyString
  end.

(** ** Package [unicode/utf8] *)

Module utf8.

Definition RuneError : N := 0xFFFD.
Definition RuneSelf : N := 0x80.
Definition MaxRune : N := 0x10FFFF.

Definition surrogateMin : N := 0xD800.
Definition surrogateMax : N := 0xDFFF.

Definition tx : N := 0x80.
Definition t2 : N := 0xC0.
Definition t3 : N := 0xE0.
Definition t4 : N := 0xF0.

Definition maskx : N := 0x3F.
Definition mask2 : N := 0x1F.
Definition mask3 : N := 0x0F.
Definition mask4 : N := 0x07.

Definition rune1Max : N := 0x7F.
Definition rune2Max : N := 0x7FF.
Definition rune3Max : N := 0xFFFF.

Definition locb : N := 0x80.
Definition hicb : N := 0xBF.

(** An entry of the table [first], with the entry of [acceptRanges] it
    points to: [as_] is an ASCII byte, [xx] an invalid first byte, and
    [sz size lo hi] the first byte of a sequence of [size] bytes whose
    second byte must lie in [lo..hi]. *)
Inductive firstInfo : Type :=
| as_
| xx
| sz (size : nat) (lo hi : N).

Definition first (b : N) : firstInfo :=
  if b <? 0x80 then as_
  else if b <? 0xC2 then xx
  else if b <? 0xE0 then sz 2 locb hicb
  else if b =? 0xE0 then sz 3 0xA0 hicb
  else if b <? 0xED then sz 3 locb hicb
  else if b =? 0xED then sz 3 locb 0x9F
  else if b <? 0xF0 then sz 3 locb hicb
  else if b =? 0xF0 then sz 4 0x90 hicb
  else if b <? 0xF4 then sz 4 locb hicb
  else if b =? 0xF4 then sz 4 locb 0x8F
  else xx.

Definition outside (lo hi b : N) : bool := (b <? lo) || (hi <? b).

(** [DecodeRuneInString] (and [DecodeRune], which is the same function
    on a byte slice): the first rune of [s] and its width in bytes;
    [(RuneError, 0)] on the empty string and [(RuneError, 1)] on an
    encoding that is invalid. *)
Definition DecodeRuneInString (s : string) : N * nat :=
  match s with
  | EmptyString => (RuneError, 0%nat)
  | String c0 r0 =>
    let s0 := byte_of c0 in
    match first s0 with
    | as_ => (s0, 1%nat)
    | xx => (RuneError, 1%nat)
    | sz size lo hi =>
      if (String.length s <? size)%nat then (RuneError, 1%nat) else
      match r0 with
      | EmptyString => (RuneError, 1%nat)
      | String c1 r1 =>
        let s1 := byte_of c1 in
        if outside lo hi s1 then (RuneError, 1%nat) else
        if (size <=? 2)%nat then
          (N.lor (N.shiftl (N.land s0 mask2) 6) (N.land s1 maskx), 2%nat)
        else
        match r1 with
        | EmptyString => (RuneError, 1%nat)
        | String c2 r2 =>
          let s2 := byte_of c2 in
          if outside locb hicb s2 then (RuneError, 1%nat) else
          if (size <=? 3)%nat then
            (N.lor (N.lor (N.shiftl (N.land s0 mask3) 12)
                          (N.shiftl (N.land s1 maskx) 6))
                   (N.land s2 maskx), 3%nat)
          else
          match r2 with
          | EmptyString => (RuneError, 1%nat)
          | String c3 _ =>
            let s3 := byte_of c3 in
            if outside locb hicb s3 then (RuneError, 1%nat) else
            (N.lor (N.lor (N.lor (N.shiftl (N.land s0 mask4) 18)
                                 (N.shiftl (N.land s1 maskx) 12))
                          (N.shiftl (N.land s2 maskx) 6))
                   (N.land s3 maskx), 4%nat)
          end
        end
      end
    end
  end.

Definition DecodeRune := DecodeRuneInString.

Definition encode3 (r : N) : string :=
  String (of_byte (N.lor t3 (to_byte (N.shiftr r 12))))
 (String (of_byte (N.lor tx (N.land (to_byte (N.shiftr r 6)) maskx)))
 (String (of_byte (N.lor tx (N.land (to_byte r) maskx)))
  EmptyString)).

(** [EncodeRune]: the bytes written for the rune [r]; a surrogate or a
    value above [MaxRune] is written as [RuneError]. *)
Definition EncodeRune (r : N) : string :=
  if r <=? rune1Max then String (of_byte (to_byte r)) EmptyString
  else if r <=? rune2Max then
    String (of_byte (N.lor t2 (to_byte (N.shiftr r 6))))
   (String (of_byte (N.lor tx (N.land (to_byte r) maskx)))
    EmptyString)
  else if (MaxRune <? r) || ((surrogateMin <=? r) && (r <=? surrogateMax))
    then encode3 RuneError
  else if r <=? rune3Max then encode3 r
  else
    String (of_byte (N.lor t4 (to_byte (N.shiftr r 18))))
   (String (of_byte (N.lor tx (N.land (to_byte (N.shiftr r 12)) maskx)))
   (String (of_byte (N.lor tx (N.land (to_byte (N.shiftr r 6)) maskx)))
   (String (of_byte (N.lor tx (N.land (to_byte r) maskx)))
    EmptyString))).

(** [ValidString]: [s] consists of valid encodings only.  The loop of
    the library advances by the width of each rune; [fuel] bounds the
    number of runes and is [len(s)] at the call. *)
Fixpoint validLoop (fuel : nat) (s : string) : bool :=
  match s, fuel with
  | EmptyString, _ => true
  | _, O => false
  | _, S fuel' =>
    let '(r, size) := DecodeRuneInString s in
    if (r =? RuneError) && (size =? 1)%nat then false
    else validLoop fuel' (slice_from size s)
  end.

Definition ValidString (s : string) : bool := validLoop (String.length s) s.

End utf8.

(** ** Package [unicode/utf16] *)

Module utf16.

Definition surr1 : N := 0xD800.
Definition surr2 : N := 0xDC00.
Definition surr3 : N := 0xE000.
Definition surrSelf : N := 0x10000.
Definition replacementChar : N := 0xFFFD.

Definition IsSurrogate (r : N) : bool := (surr1 <=? r) && (r <? surr3).

(** [DecodeRune r1 r2], where [r2 = None] stands for the [-1] that
    [getu4] returns when no escape follows. *)
Definition DecodeRune (r1 : N) (r2 : option N) : N :=
  match r2 with
  | Some r2 =>
    if (surr1 <=? r1) && (r1 <? surr2) && (surr2 <=? r2) && (r2 <? surr3)
    then N.lor (N.shiftl (r1 - surr1) 10) (r2 - surr2) + surrSelf
    else replacementChar
  | None => replacementChar
  end.

End utf16.

(** ** Package [encoding/json]

    The part of the package that a struct of tagged [string] fields goes
    through: the encoder of [Marshal] (with HTML escaping, as [Marshal]
    sets it) and the decoder of [Unmarshal] (syntax check of the whole
    document, then assignment of the members of the top-level object). *)

Module json.

(** *** Encoding *)

Definition hex : string := "0123456789abcdef".

(** [hex[i]] for [i < 16]. *)
Definition hexAt (i : N) : ascii :=
  match String.get (N.to_nat i) hex with
  | Some c => c
  | None => "0"%char
  end.

(** The table [htmlSafeSet]: the ASCII bytes written as they are, which
    are those from the space on, but for the quotation mark, the
    backslash and the three HTML characters. *)
Definition htmlSafeSet (b : N) : bool :=
  (0x20 <=? b) && (b <? 0x80) &&
  negb (b =? 0x22) && negb (b =? 0x5C) &&
  negb (b =? 0x26) && negb (b =? 0x3C) && negb (b =? 0x3E).

(** What is written for an ASCII byte that is not in [htmlSafeSet], as
    the releases of Go before 1.22 write it: the backspace and the form
    feed as [\u0008] and [\u000c], which later releases write as [\b] and
    [\f]; the decoder reads both forms as the same byte. *)
Definition escapeByte (c : ascii) : string :=
  let b := byte_of c in
  String "\"
    (if (b =? 0x5C) || (b =? 0x22) then String c EmptyString
     else if b =? 0x0A then "n"
     else if b =? 0x0D then "r"
     else if b =? 0x09 then "t"
     else "u00" +:+ String (hexAt (N.shiftr b 4))
                   (String (hexAt (N.land b 0xF)) EmptyString)).

(** The loop of [encodeState.string] from index [i] on, where [s] is
    the string from [i]; [fuel] is [len(s)] at the call. *)
Fixpoint stringLoop (fuel : nat) (s : string) : string :=
  match s, fuel with
  | EmptyString, _ => EmptyString
  | _, O => EmptyString
  | String c t, S fuel' =>
    if byte_of c <? utf8.RuneSelf then
      if htmlSafeSet (byte_of c) then String c (stringLoop fuel' t)
      else escapeByte c +:+ stringLoop fuel' t
    else
      let '(r, size) := utf8.DecodeRuneInString s in
      if (r =? utf8.RuneError) && (size =? 1)%nat then
        String "\" "ufffd" +:+ stringLoop fuel' (slice_from size s)
      else if (r =? 0x2028) || (r =? 0x2029) then
        "\u202" +:+ String (hexAt (N.land r 0xF))
                           (stringLoop fuel' (slice_from size s))
      else slice_to size s +:+ stringLoop fuel' (slice_from size s)
  end.

Definition encodeString (s : string) : string :=
  String quote (stringLoop (String.length s) s +:+ String quote EmptyString).

(** *** Scanning *)

Definition isSpace (c : ascii) : bool :=
  let b := byte_of c in
  (b =? 0x20) || (b =? 0x09) || (b =? 0x0D) || (b =? 0x0A).

Fixpoint skipSpace (s : string) : string :=
  match s with
  | String c t => if isSpace c then skipSpace t else s
  | EmptyString => EmptyString
  end.

Definition isDigit (c : ascii) : bool :=
  (0x30 <=? byte_of c) && (byte_of c <=? 0x39).

Definition isHex (c : ascii) : bool :=
  let b := byte_of c in
  ((0x30 <=? b) && (b <=? 0x39)) ||
  ((0x61 <=? b) && (b <=? 0x66)) ||
  ((0x41 <=? b) && (b <=? 0x46)).

(** The character after a backslash in [stateInStringEsc], [u] apart. *)
Definition isEscape (c : ascii) : bool :=
  match c with
  | "b" | "f" | "n" | "r" | "t" | "\" | "/" | "034" => true
  | _ => false
  end%char.

(** The states [stateInString] .. [stateInStringEscU123]: from the
    byte after the opening quotation mark, the literal up to the closing
    one (escapes as written) and what follows it. *)
Fixpoint scanString (s : string) : option (string * string) :=
  match s with
  | EmptyString => None
  | String c t =>
    if Ascii.eqb c quote then Some (EmptyString, t)
    else if Ascii.eqb c "\" then
      match t with
      | String e t1 =>
        if isEscape e then
          '(lit, rest) ← scanString t1;
          Some (String c (String e lit), rest)
        else if Ascii.eqb e "u" then
          match t1 with
          | String h1 (String h2 (String h3 (String h4 t2))) =>
            if isHex h1 && isHex h2 && isHex h3 && isHex h4 then
              '(lit, rest) ← scanString t2;
              Some (String c (String e (String h1 (String h2
                     (String h3 (String h4 lit))))), rest)
            else None
          | _ => None
          end
        else None
      | EmptyString => None
      end
    else if byte_of c <? 0x20 then None
    else
      '(lit, rest) ← scanString t;
      Some (String c lit, rest)
  end.

(** The longest prefix of digits, and the rest. *)
Fixpoint digits (s : string) : string * string :=
  match s with
  | String c t =>
    if isDigit c then let '(d, rest) := digits t in (String c d, rest)
    else (EmptyString, s)
  | EmptyString => (EmptyString, EmptyString)
  end.

(** [stateE], [stateESign], [stateE0]: an exponent, if one follows. *)
Definition scanExp (s : string) : option (string * string) :=
  match s with
  | String c t =>
    if Ascii.eqb c "e" || Ascii.eqb c "E" then
      let '(sign, t1) :=
        match t with
        | String g t' =>
          if Ascii.eqb g "+" || Ascii.eqb g "-"
          then (String g EmptyString, t') else (EmptyString, t)
        | EmptyString => (EmptyString, t)
        end in
      match digits t1 with
      | (EmptyString, _) => None
      | (d, rest) => Some (String c (sign +:+ d), rest)
      end
    else Some (EmptyString, s)
  | EmptyString => Some (EmptyString, s)
  end.

(** [stateDot], [stateDot0]: a fraction, if one follows. *)
Definition scanFrac (s : string) : option (string * string) :=
  match s with
  | String c t =>
    if Ascii.eqb c "." then
      match digits t with
      | (EmptyString, _) => None
      | (d, rest) => Some (String c d, rest)
      end
    else Some (EmptyString, s)
  | EmptyString => Some (EmptyString, s)
  end.

(** [state0], [state1]: the integer part, after the sign. *)
Definition scanInt (s : string) : option (string * string) :=
  match s with
  | String c t =>
    if Ascii.eqb c "0" then Some (String c EmptyString, t)
    else if isDigit c then
      let '(d, rest) := digits t in Some (String c d, rest)
    else None
  | EmptyString => None
  end.

(** A number literal and what follows it. *)
Definition scanNumber (s : string) : option (string * string) :=
  let '(sign, s1) :=
    match s with
    | String c t =>
      if Ascii.eqb c "-" then (String c EmptyString, t) else (EmptyString, s)
    | EmptyString => (EmptyString, s)
    end in
  '(i, s2) ← scanInt s1;
  '(f, s3) ← scanFrac s2;
  '(e, s4) ← scanExp s3;
  Some (sign +:+ i +:+ f +:+ e, s4).

(** [s] without the prefix [p], when it starts with it. *)
Fixpoint stripPrefix (p s : string) : option string :=
  match p, s with
  | EmptyString, _ => Some s
  | String a p', String b s' =>
    if Ascii.eqb a b then stripPrefix p' s' else None
  | String _ _, EmptyString => None
  end.

(** *** Unquoting *)

Definition hexValue (c : ascii) : option N :=
  let b := byte_of c in
  if (0x30 <=? b) && (b <=? 0x39) then Some (b - 0x30)
  else if (0x61 <=? b) && (b <=? 0x66) then Some (b - 0x61 + 10)
  else if (0x41 <=? b) && (b <=? 0x46) then Some (b - 0x41 + 10)
  else None.

(** [getu4]: the rune of an escape [\uXXXX] at the start of [s];
    [None] stands for the result [-1]. *)
Definition getu4 (s : string) : option N :=
  match s with
  | String "\" (String "u" (String h1 (String h2 (String h3 (String h4 _))))) =>
    a ← hexValue h1; b ← hexValue h2; c ← hexValue h3; d ← hexValue h4;
    Some (((a * 16 + b) * 16 + c) * 16 + d)
  | _ => None
  end.

(** The byte that a one-letter escape stands for in [unquoteBytes]. *)
Definition simpleEscape (e : ascii) : option ascii :=
  match e with
  | "034" | "\" | "/" | "'" => Some e
  | "b" => Some (of_byte 0x08)
  | "f" => Some (of_byte 0x0C)
  | "n" => Some (of_byte 0x0A)
  | "r" => Some (of_byte 0x0D)
  | "t" => Some (of_byte 0x09)
  | _ => None
  end%char.

(** The second loop of [unquoteBytes] from index [r] on ([s] is the
    literal from [r]); [None] is the result [ok = false].  The first
    loop of the library returns the literal itself when nothing in it
    needs unquoting, which is what this loop computes for it too. *)
Fixpoint unquoteLoop (fuel : nat) (s : string) : option string :=
  match s, fuel with
  | EmptyString, _ => Some EmptyString
  | _, O => None
  | String c t, S fuel' =>
    if Ascii.eqb c "\" then
      match t with
      | EmptyString => None
      | String e t1 =>
        match simpleEscape e with
        | Some b => String b <$> unquoteLoop fuel' t1
        | None =>
          if Ascii.eqb e "u" then
            rr ← getu4 s;
            let s6 := slice_from 6 s in
            if utf16.IsSurrogate rr then
              let dec := utf16.DecodeRune rr (getu4 s6) in
              if negb (dec =? utf16.replacementChar) then
                String.append (utf8.EncodeRune dec)
                  <$> unquoteLoop fuel' (slice_from 6 s6)
              else
                String.append (utf8.EncodeRune utf16.replacementChar)
                  <$> unquoteLoop fuel' s6
            else
              String.append (utf8.EncodeRune rr) <$> unquoteLoop fuel' s6
          else None
        end
      end
    else if Ascii.eqb c quote || (byte_of c <? 0x20) then None
    else if byte_of c <? utf8.RuneSelf then String c <$> unquoteLoop fuel' t
    else
      let '(rr, size) := utf8.DecodeRune s in
      String.append (utf8.EncodeRune rr)
        <$> unquoteLoop fuel' (slice_from size s)
  end.

(** [unquoteBytes] on the inside of a literal (between the quotation
    marks). *)
Definition unquote (lit : string) : option string :=
  unquoteLoop (String.length lit) lit.

(** *** Parsing *)

#[local] Set Warnings "-register-all".

Inductive Value : Type :=
| JNull
| JBool (b : bool)
| JNumber (lit : string)
| JString (s : string)
| JArray (elems : list Value)
| JObject (members : list (string * Value)).

(** A string literal, unquoted, from the byte after its opening
    quotation mark. *)
Definition stringLit (s : string) : option (string * string) :=
  '(lit, rest) ← scanString s;
  str ← unquote lit;
  Some (str, rest).

(** One value of the document [s] and what follows it; [None] is a
    syntax error.  [fuel] bounds the number of nested calls.  The limit
    that later releases of the library put on the depth of nesting is
    left out. *)
Fixpoint value (fuel : nat) (s : string) {struct fuel}
  : option (Value * string) :=
  match fuel with
  | O => None
  | S fuel' =>
    match skipSpace s with
    | EmptyString => None
    | String c t =>
      if Ascii.eqb c "{" then
        match skipSpace t with
        | EmptyString => None
        | String c' t' =>
          if Ascii.eqb c' "}" then Some (JObject [], t')
          else '(kvs, t') ← members fuel' t; Some (JObject kvs, t')
        end
      else if Ascii.eqb c "[" then
        match skipSpace t with
        | EmptyString => None
        | String c' t' =>
          if Ascii.eqb c' "]" then Some (JArray [], t')
          else '(vs, t') ← elements fuel' t; Some (JArray vs, t')
        end
      else if Ascii.eqb c quote then
        '(str, t') ← stringLit t; Some (JString str, t')
      else if Ascii.eqb c "-" || isDigit c then
        '(lit, t') ← scanNumber (String c t); Some (JNumber lit, t')
      else if Ascii.eqb c "t" then
        t' ← stripPrefix "rue" t; Some (JBool true, t')
      else if Ascii.eqb c "f" then
        t' ← stripPrefix "alse" t; Some (JBool false, t')
      else if Ascii.eqb c "n" then
        t' ← stripPrefix "ull" t; Some (JNull, t')
      else None
    end
  end

(** The members of an object from its first key on, up to and with the
    closing brace. *)
with members (fuel : nat) (s : string) {struct fuel}
  : option (list (string * Value) * string) :=
  match fuel with
  | O => None
  | S fuel' =>
    match skipSpace s with
    | EmptyString => None
    | String c t =>
      if Ascii.eqb c quote then
        '(key, t1) ← stringLit t;
        match skipSpace t1 with
        | EmptyString => None
        | String c1 t2 =>
          if Ascii.eqb c1 ":" then
            '(v, t3) ← value fuel' t2;
            match skipSpace t3 with
            | EmptyString => None
            | String c3 t4 =>
              if Ascii.eqb c3 "," then
                '(kvs, t5) ← members fuel' t4; Some ((key, v) :: kvs, t5)
              else if Ascii.eqb c3 "}" then Some ([(key, v)], t4)
              else None
            end
          else None
        end
      else None
    end
  end

(** The elements of an array from its first element on, up to and with
    the closing bracket. *)
with elements (fuel : nat) (s : string) {struct fuel}
  : option (list Value * string) :=
  match fuel with
  | O => None
  | S fuel' =>
    '(v, t1) ← value fuel' s;
    match skipSpace t1 with
    | EmptyString => None
    | String c t2 =>
      if Ascii.eqb c "," then
        '(vs, t3) ← elements fuel' t2; Some (v :: vs, t3)
      else if Ascii.eqb c "]" then Some ([v], t2)
      else None
    end
  end.

(** The document as a whole ([checkValid]): one value, with nothing but
    space after it.  A nested call is reached after at least one byte of
    the document every second call. *)
Definition parse (data : string) : option Value :=
  '(v, rest) ← value (2 * String.length data + 2) data;
  match skipSpace rest with
  | EmptyString => Some v
  | String _ _ => None
  end.

Definition Valid (data : string) : bool :=
  match parse data with Some _ => true | None => false end.

(** *** Structs of string fields

    What reflection finds in a struct type whose fields are all
    exported strings with a [json] tag: for each field, in the order of
    declaration, the name in its tag and the field itself (how to read
    it, how to assign it).  The names are ASCII letters. *)

Record Field (T : Type) : Type := mkField {
  name : string;
  get : T → string;
  set : T → string → T
}.
Arguments mkField {T} _ _ _.
Arguments name {T} _.
Arguments get {T} _ _.
Arguments set {T} _ _ _.

Class Struct (T : Type) : Type := fields : list (Field T).
Arguments fields T {_}.

(** The loop of [structEncoder.encode]; [next] is the byte written
    before the next field.  A name of letters is its own HTML-escaped
    form. *)
Fixpoint encodeFields {T} (fs : list (Field T)) (v : T) (next : ascii)
  : string :=
  match fs with
  | [] => EmptyString
  | f :: fs' =>
    String next
      (String quote (name f) +:+ String quote ":" +:+
       encodeString (get f v) +:+ encodeFields fs' v ",")
  end.

(** [Marshal] of a struct value.  Its error is [nil] for these types,
    and the callers drop it. *)
Definition Marshal {T} `{Struct T} (v : T) : string :=
  match fields T with
  | [] => "{}"
  | fs => encodeFields fs v "{" +:+ "}"
  end.

Definition caseMask : N := 0xDF.
Definition kelvin : N := 0x212A.
Definition smallLongEss : N := 0x017F.

(** [equalFoldRight s t], which is what [foldFunc] amounts to on a name
    [s] in ASCII: [t] is [s] up to the case of letters, with the Kelvin
    sign for a k and the long s for an s. *)
Fixpoint equalFoldRight (s t : string) : bool :=
  match s with
  | EmptyString =>
    match t with EmptyString => true | String _ _ => false end
  | String sc s' =>
    match t with
    | EmptyString => false
    | String tc t' =>
      let sb := byte_of sc in
      let tb := byte_of tc in
      if tb <? utf8.RuneSelf then
        if sb =? tb then equalFoldRight s' t'
        else
          let sbUpper := N.land sb caseMask in
          if (0x41 <=? sbUpper) && (sbUpper <=? 0x5A) then
            if sbUpper =? N.land tb caseMask then equalFoldRight s' t'
            else false
          else false
      else
        let '(tr, size) := utf8.DecodeRune t in
        if (sb =? 0x73) || (sb =? 0x53) then
          if tr =? smallLongEss then equalFoldRight s' (slice_from size t)
          else false
        else if (sb =? 0x6B) || (sb =? 0x4B) then
          if tr =? kelvin then equalFoldRight s' (slice_from size t)
          else false
        else false
    end
  end.

(** The field a key of the document names: the one with exactly that
    name, else the first one that matches it up to case. *)
Definition findField {T} (fs : list (Field T)) (key : string)
  : option (Field T) :=
  match List.find (λ f, String.eqb (name f) key) fs with
  | Some f => Some f
  | None => List.find (λ f, equalFoldRight (name f) key) fs
  end.

Inductive Error : Type :=
| SyntaxError
| UnmarshalTypeError.

(** [saveError]: the first error is the one reported. *)
Definition saveError (saved : option Error) (err : Error) : option Error :=
  match saved with
  | Some e => Some e
  | None => Some err
  end.

(** [decodeState.object] on a struct: the members in the order of the
    document.  A string is assigned to the field its key names, [null]
    leaves the field as it is, any other value is a type error, after
    which decoding goes on; a key that names no field is skipped. *)
Fixpoint object {T} (fs : list (Field T)) (kvs : list (string * Value))
  (v : T) (saved : option Error) : T * option Error :=
  match kvs with
  | [] => (v, saved)
  | (key, val) :: rest =>
    match findField fs key with
    | Some f =>
      match val with
      | JString s => object fs rest (set f v s) saved
      | JNull => object fs rest v saved
      | _ => object fs rest v (saveError saved UnmarshalTypeError)
      end
    | None => object fs rest v saved
    end
  end.

(** [Unmarshal data v] for [v] a pointer to a struct: the struct after
    the call and the error.  On a syntax error nothing is assigned. *)
Definition Unmarshal {T} `{Struct T} (data : string) (v : T)
  : T * option Error :=
  match parse data with
  | None => (v, Some SyntaxError)
  | Some (JObject kvs) => object (fields T) kvs v None
  | Some JNull => (v, None)
  | Some _ => (v, Some UnmarshalTypeError)
  end.

End json.

(** ** Package [strings] *)

Module strings.

(** [Split s sep] for a separator [sep] of one byte: the substrings of
    [s] between the separators; a string without the separator (the
    empty string too) is the only element of the result. *)
Fixpoint Split (s : string) (sep : ascii) : list string :=
  match s with
  | EmptyString => [EmptyString]
  | String c t =>
    if Ascii.eqb c sep then EmptyString :: Split t sep
    else
      match Split t sep with
      | p :: ps => String c p :: ps
      | [] => [String c EmptyString]
      end
  end.

End strings.

(** ** Package [regexp] *)

Module regexp.

(** The compiled form of a pattern [[lo-hi]+]: one or more bytes of a
    range. *)
Record Regexp : Type := ClassPlus { lo : ascii; hi : ascii }.

Definition inClass (re : Regexp) (c : ascii) : bool :=
  (byte_of (lo re) <=? byte_of c) && (byte_of c <=? byte_of (hi re)).

(** The longest prefix of [s] within the class. *)
Fixpoint run (re : Regexp) (s : string) : string :=
  match s with
  | String c t => if inClass re c then String c (run re t) else EmptyString
  | EmptyString => EmptyString
  end.

(** [re.Find(b)]: the leftmost match in [b], which the greedy [+] makes
    the longest one from there; [None] is [nil], when there is no match. *)
Fixpoint Find (re : Regexp) (b : string) : option string :=
  match b with
  | EmptyString => None
  | String c t =>
    if inClass re c then Some (String c (run re t)) else Find re t
  end.

End regexp.

(** [string(b)] of a byte slice that may be [nil]. *)
Definition string_of_bytes (b : option string) : string :=
  match b with
  | Some s => s
  | None => EmptyString
  end.

(** ** Package [phe]

    [MeanFromString] and [KeyUpdateFromString] take and return strings;
    they have no error result.  The contract calls each of them at most
    once in a call; it is defined, and its properties hold, for any two
    functions of these types. *)

Module phe.

Class Lib : Type := {
  MeanFromString : string → list string → string;
  KeyUpdateFromString : string → string → string → string → string
}.

End phe.

(** ** The world state behind the stub

    [GetState] and [PutState] of the stub that [ctx.GetStub()] returns.
    The ledger is not part of the contract; the specification describes
    it as a store of values under keys with [put(key, bytes)] and
    [get(key) -> bytes | absent], each of which may fail.  When and with
    which error the ledger fails a read or a write is left open:
    [getStateError key] is the error of a read of [key], if it fails, and
    [putStateError key value] the error of a write. *)

Definition error : Type := string.

Abbreviation WorldState := (gmap string string).

Module shim.

Class Failures : Type := {
  getStateError : string → option error;
  putStateError : string → string → option error
}.

(** Modelled from the spec: [GetState(key)] of the ledger, which is not
    in the source.  The value and the error; the value is [nil] for a key
    that is not in the world state. *)
Definition GetState `{Failures} (w : WorldState) (key : string)
  : option string * option error :=
  match getStateError key with
  | Some e => (None, Some e)
  | None => (w !! key, None)
  end.

(** Modelled from the spec: [PutState(key, value)] of the ledger, which
    is not in the source.  The world state after the call and the error;
    a write that fails changes nothing. *)
Definition PutState `{Failures} (w : WorldState) (key value : string)
  : WorldState * option error :=
  match putStateError key value with
  | Some e => (w, Some e)
  | None => (<[key := value]> w, None)
  end.

End shim.

(** ** The contract *)

(** The three structs.  [KeyID] and [Value] name fields of more than one
    struct in the source; the fields of [Proposal] and [Result] carry the
    name of their struct here, and the [json] tags are those of the
    source. *)

Record Patient : Type := {
  Name : string;
  PreExistingConditions : string;
  DiagnosisID : string;
  StatusID : string;
  KeyID : string
}.

Record Proposal : Type := {
  RequesterID : string;
  RequestedID : string;
  PatientsIDs : string;
  ProposalKeyID : string;
  ProposalValue : string
}.

Record Result : Type := {
  ProposalID : string;
  ResultKeyID : string;
  ResultValue : string
}.

(** Assignment to a field: [p.Name = x] and so on. *)

Definition setName (p : Patient) (x : string) : Patient :=
  {| Name := x; PreExistingConditions := PreExistingConditions p;
     DiagnosisID := DiagnosisID p; StatusID := StatusID p; KeyID := KeyID p |}.

Definition setPreExistingConditions (p : Patient) (x : string) : Patient :=
  {| Name := Name p; PreExistingConditions := x;
     DiagnosisID := DiagnosisID p; StatusID := StatusID p; KeyID := KeyID p |}.

Definition setDiagnosisID (p : Patient) (x : string) : Patient :=
  {| Name := Name p; PreExistingConditions := PreExistingConditions p;
     DiagnosisID := x; StatusID := StatusID p; KeyID := KeyID p |}.

Definition setStatusID (p : Patient) (x : string) : Patient :=
  {| Name := Name p; PreExistingConditions := PreExistingConditions p;
     DiagnosisID := DiagnosisID p; StatusID := x; KeyID := KeyID p |}.

Definition setKeyID (p : Patient) (x : string) : Patient :=
  {| Name := Name p; PreExistingConditions := PreExistingConditions p;
     DiagnosisID := DiagnosisID p; StatusID := StatusID p; KeyID := x |}.

Definition setRequesterID (p : Proposal) (x : string) : Proposal :=
  {| RequesterID := x; RequestedID := RequestedID p;
     PatientsIDs := PatientsIDs p; ProposalKeyID := ProposalKeyID p;
     ProposalValue := ProposalValue p |}.

Definition setRequestedID (p : Proposal) (x : string) : Proposal :=
  {| RequesterID := RequesterID p; RequestedID := x;
     PatientsIDs := PatientsIDs p; ProposalKeyID := ProposalKeyID p;
     ProposalValue := ProposalValue p |}.

Definition setPatientsIDs (p : Proposal) (x : string) : Proposal :=
  {| RequesterID := RequesterID p; RequestedID := RequestedID p;
     PatientsIDs := x; ProposalKeyID := ProposalKeyID p;
     ProposalValue := ProposalValue p |}.

Definition setProposalKeyID (p : Proposal) (x : string) : Proposal :=
  {| RequesterID := RequesterID p; RequestedID := RequestedID p;
     PatientsIDs := PatientsIDs p; ProposalKeyID := x;
     ProposalValue := ProposalValue p |}.

Definition setProposalValue (p : Proposal) (x : string) : Proposal :=
  {| RequesterID := RequesterID p; RequestedID := RequestedID p;
     PatientsIDs := PatientsIDs p; ProposalKeyID := ProposalKeyID p;
     ProposalValue := x |}.

Definition setProposalID (r : Result) (x : string) : Result :=
  {| ProposalID := x; ResultKeyID := ResultKeyID r;
     ResultValue := ResultValue r |}.

Definition setResultKeyID (r : Result) (x : string) : Result :=
  {| ProposalID := ProposalID r; ResultKeyID := x;
     ResultValue := ResultValue r |}.

Definition setResultValue (r : Result) (x : string) : Result :=
  {| ProposalID := ProposalID r; ResultKeyID := ResultKeyID r;
     ResultValue := x |}.

(** The fields with their [json] tags, in the order of declaration. *)

#[global] Instance Patient_struct : json.Struct Patient := [
  json.mkField "name" Name setName;
  json.mkField "preExistingConditions" PreExistingConditions
    setPreExistingConditions;
  json.mkField "diagnosisID" DiagnosisID setDiagnosisID;
  json.mkField "statusID" StatusID setStatusID;
  json.mkField "keyID" KeyID setKeyID
].

#[global] Instance Proposal_struct : json.Struct Proposal := [
  json.mkField "requesterID" RequesterID setRequesterID;
  json.mkField "requestedID" RequestedID setRequestedID;
  json.mkField "patientsIDs" PatientsIDs setPatientsIDs;
  json.mkField "keyID" ProposalKeyID setProposalKeyID;
  json.mkField "value" ProposalValue setProposalValue
].

#[global] Instance Result_struct : json.Struct Result := [
  json.mkField "proposalID" ProposalID setProposalID;
  json.mkField "keyID" ResultKeyID setResultKeyID;
  json.mkField "value" ResultValue setResultValue
].

(** [new(Patient)], [new(Proposal)], [new(Result)]: the zero values. *)

Definition newPatient : Patient :=
  {| Name := ""; PreExistingConditions := ""; DiagnosisID := "";
     StatusID := ""; KeyID := "" |}.

Definition newProposal : Proposal :=
  {| RequesterID := ""; RequestedID := ""; PatientsIDs := "";
     ProposalKeyID := ""; ProposalValue := "" |}.

Definition newResult : Result :=
  {| ProposalID := ""; ResultKeyID := ""; ResultValue := "" |}.

(** The two messages that the contract makes with [fmt.Errorf]. *)

Definition readFailed (e : error) : error :=
  "Failed to read from world state. " +:+ e.

Definition doesNotExist (id : string) : error := id +:+ " does not exist".

(** The two results [(x, nil)] and [(nil, err)] of a function that
    returns a pointer and an error. *)
Inductive found (A : Type) : Type :=
| Found (x : A)
| Failed (err : error).
Arguments Found {A} x.
Arguments Failed {A} err.

Section SimpleContract.

Context {crypto : phe.Lib} {ledger : shim.Failures}.

(** A function of the contract that returns [error] is a function from
    the world state before the call to the world state after it and the
    error.  The functions that return a pointer and an error write
    nothing. *)

Definition CreatePatient (w : WorldState)
  (id name preExistingConditions diagnosisID statusID keyID : string)
  : WorldState * option error :=
  let patient := {| Name := name;
                    PreExistingConditions := preExistingConditions;
                    DiagnosisID := diagnosisID;
                    StatusID := statusID;
                    KeyID := keyID |} in
  let patientAsBytes := json.Marshal patient in
  shim.PutState w id patientAsBytes.

Definition FindPatient (w : WorldState) (id : string) : found Patient :=
  match shim.GetState w id with
  | (_, Some err) => Failed (readFailed err)
  | (None, None) => Failed (doesNotExist id)
  | (Some patientAsBytes, None) =>
    let '(patient, _) := json.Unmarshal patientAsBytes newPatient in
    Found patient
  end.

Definition UpdatePatient (w : WorldState)
  (id name preExistingConditions diagnosisID statusID keyID : string)
  : WorldState * option error :=
  match FindPatient w id with
  | Failed err => (w, Some err)
  | Found patient =>
    let patient := setName patient name in
    let patient := setPreExistingConditions patient preExistingConditions in
    let patient := setDiagnosisID patient diagnosisID in
    let patient := setStatusID patient statusID in
    let patient := setKeyID patient keyID in
    let patientAsBytes := json.Marshal patient in
    shim.PutState w id patientAsBytes
  end.

(** The loop of [CreateProposal] over [pids], entered with the slice
    [ms]: the error of the first patient that is not found, else [ms]
    with the value of every patient appended. *)
Fixpoint patientsValues (w : WorldState) (pids ms : list string)
  : found (list string) :=
  match pids with
  | [] => Found ms
  | pid :: rest =>
    match FindPatient w pid with
    | Failed err => Failed err
    | Found patient =>
      patientsValues w rest (ms ++ [PreExistingConditions patient])
    end
  end.

Definition CreateProposal (w : WorldState)
  (id requesterID requestedID patientsIDs keyID modulo : string)
  : WorldState * option error :=
  let proposal := {| RequesterID := requesterID;
                     RequestedID := requestedID;
                     PatientsIDs := patientsIDs;
                     ProposalKeyID := keyID;
                     ProposalValue := "" |} in
  let pids := strings.Split (PatientsIDs proposal) "," in
  match patientsValues w pids [] with
  | Failed err => (w, Some err)
  | Found ms =>
    let m := phe.MeanFromString modulo ms in
    let proposal := setProposalValue proposal m in
    let proposalAsBytes := json.Marshal proposal in
    shim.PutState w id proposalAsBytes
  end.

Definition FindProposal (w : WorldState) (id : string) : found Proposal :=
  match shim.GetState w id with
  | (_, Some err) => Failed (readFailed err)
  | (None, None) => Failed (doesNotExist id)
  | (Some proposalAsBytes, None) =>
    let '(proposal, _) := json.Unmarshal proposalAsBytes newProposal in
    Found proposal
  end.

(** The key under which [CreateResult] stores the result of a proposal:
    ["RESULT"] and the first match of [[0-9]+] in the id of the
    proposal. *)
Definition resultID (proposalID : string) : string :=
  let re := regexp.ClassPlus "0" "9" in
  let idNumber := string_of_bytes (regexp.Find re proposalID) in
  "RESULT" +:+ idNumber.

Definition CreateResult (w : WorldState)
  (proposalID firstToken secondToken keyID modulo : string)
  : WorldState * option error :=
  match FindProposal w proposalID with
  | Failed err => (w, Some err)
  | Found proposal =>
    let newValue :=
      phe.KeyUpdateFromString modulo firstToken secondToken
        (ProposalValue proposal) in
    let result := {| ProposalID := proposalID;
                     ResultKeyID := keyID;
                     ResultValue := newValue |} in
    let id := resultID proposalID in
    let resultAsBytes := json.Marshal result in
    shim.PutState w id resultAsBytes
  end.

Definition FindResult (w : WorldState) (id : string) : found Result :=
  match shim.GetState w id with
  | (_, Some err) => Failed (readFailed err)
  | (None, None) => Failed (doesNotExist id)
  | (Some resultAsBytes, None) =>
    let '(result, _) := json.Unmarshal resultAsBytes newResult in
    Found result
  end.

End SimpleContract.

(** ** The range query *)

Module queryresult.

(** A key of the world state and the value under it, as an iterator
    delivers them. *)
Record KV : Type := { Key : string; Value : string }.

End queryresult.

(** [QueryResult], with its fields [Key] and [Record]. *)
Record QueryResult : Type := {
  QueryResultKey : string;
  QueryResultRecord : Patient
}.

Module iterators.

(** The iterator that [GetStateByRange] returns, as what its calls of
    [Next] return one after the other, each a key with its value or an
    error; [HasNext] holds as long as a call of [Next] is left. *)
Definition StateQueryIterator : Type := list (found queryresult.KV).

(** [GetStateByRange] of the stub: an iterator or an error.  Which keys
    the iterator delivers, in which order and with which failures, is
    left to the ledger. *)
Class RangeQueries : Type :=
  GetStateByRange : WorldState → string → string → found StateQueryIterator.

End iterators.

(** The loop of [AllPatients] over what is left of the iterator, entered
    with the slice [results]. *)
Fixpoint allPatientsLoop (resultsIterator : iterators.StateQueryIterator)
  (results : list QueryResult) : found (list QueryResult) :=
  match resultsIterator with
  | [] => Found results
  | Failed err :: _ => Failed err
  | Found queryResponse :: rest =>
    let '(patient, _) :=
      json.Unmarshal (queryresult.Value queryResponse) newPatient in
    let queryResult :=
      {| QueryResultKey := queryresult.Key queryResponse;
         QueryResultRecord := patient |} in
    allPatientsLoop rest (results ++ [queryResult])
  end.

(** [AllPatients].  The deferred [Close] of the iterator returns nothing
    that the function uses and leaves the world state as it is. *)
Definition AllPatients {ranges : iterators.RangeQueries} (w : WorldState)
  (firstID lastID : string) : found (list QueryResult) :=
  match iterators.GetStateByRange w firstID lastID with
  | Failed err => Failed err
  | Found resultsIterator => allPatientsLoop resultsIterator []
  end.

(** ** Invocations

    The four functions of the contract that write to the world state, as
    the host invokes them: each with its arguments. *)

Inductive Invocation : Type :=
| InvokeCreatePatient
    (id name preExistingConditions diagnosisID statusID keyID : string)
| InvokeUpdatePatient
    (id name preExistingConditions diagnosisID statusID keyID : string)
| InvokeCreateProposal
    (id requesterID requestedID patientsIDs keyID modulo : string)
| InvokeCreateResult
    (proposalID firstToken secondToken keyID modulo : string).

Definition invoke {crypto : phe.Lib} {ledger : shim.Failures}
  (inv : Invocation) (w : WorldState) : WorldState * option error :=
  match inv with
  | InvokeCreatePatient id name preExistingConditions diagnosisID statusID
      keyID =>
    CreatePatient w id name preExistingConditions diagnosisID statusID keyID
  | InvokeUpdatePatient id name preExistingConditions diagnosisID statusID
      keyID =>
    UpdatePatient w id name preExistingConditions diagnosisID statusID keyID
  | InvokeCreateProposal id requesterID requestedID patientsIDs keyID modulo =>
    CreateProposal w id requesterID requestedID patientsIDs keyID modulo
  | InvokeCreateResult proposalID firstToken secondToken keyID modulo =>
    CreateResult w proposalID firstToken secondToken keyID modulo
  end.

(** The key that an invocation passes to [PutState], when it gets that
    far. *)
Definition writtenKey (inv : Invocation) : string :=
  match inv with
  | InvokeCreatePatient id _ _ _ _ _ => id
  | InvokeUpdatePatient id _ _ _ _ _ => id
  | InvokeCreateProposal id _ _ _ _ _ => id
  | InvokeCreateResult proposalID _ _ _ _ => resultID proposalID
  end.

(** ** Stand-ins for the ledger and for [phe] in the examples *)

(** The rule of the stub of Fabric: a write under the empty key fails. *)
Definition fabric : shim.Failures :=
  {| shim.getStateError := λ _, None;
     shim.putStateError := λ key _,
       match key with
       | EmptyString => Some "key must not be an empty string"
       | String _ _ => None
       end |}.

(** Functions in place of [phe] that show what they were called with:
    the mean is ["mean("], the modulus and the ciphertexts, each followed
    by a semicolon, and [")"]. *)
Definition recording : phe.Lib :=
  {| phe.MeanFromString := λ modulo ms,
       "mean(" +:+ modulo +:+ ";" +:+
       foldr (λ m acc, m +:+ ";" +:+ acc) ")" ms;
     phe.KeyUpdateFromString := λ modulo firstToken secondToken value,
       "update(" +:+ modulo +:+ ";" +:+ firstToken +:+ ";" +:+
       secondToken +:+ ";" +:+ value +:+ ")" |}.

(** Functions in place of [phe] that return the empty string whatever
    they are given, as a function that can only return a string does
    when it has nothing to return. *)
Definition silent : phe.Lib :=
  {| phe.MeanFromString := λ _ _, EmptyString;
     phe.KeyUpdateFromString := λ _ _ _ _, EmptyString |}.

(** ** Stand-ins for the range scan of the ledger *)

(** Modelled from the spec: the order of keys, byte by byte, a prefix
    before its extensions. *)
Definition keyBefore (a b : string) : Prop :=
  String.ltb a b = true.

(** Modelled from the spec: a key of the half-open range from [startKey]
    to [endKey]. *)
Definition keyInRange (startKey endKey key : string) : bool :=
  String.leb startKey key && String.ltb key endKey.

(** The order in which the scan delivers entries. *)
Definition keyLe (a b : queryresult.KV) : Prop :=
  String.le (queryresult.Key a) (queryresult.Key b).

(** Modelled from the spec: the range scan of the ledger, which is not in
    the source.  The entries of the world state whose keys are in the
    half-open range, in ascending order of their keys. *)
Definition rangeScan (w : WorldState) (startKey endKey : string)
  : list queryresult.KV :=
  merge_sort keyLe
    (map (λ kv, {| queryresult.Key := kv.1; queryresult.Value := kv.2 |})
       (filter (λ kv, keyInRange startKey endKey kv.1 = true)
          (map_to_list w))).

(** Modelled from the spec: a ledger whose range scan does not fail. *)
Definition scanning : iterators.RangeQueries :=
  λ w startKey endKey, Found (map Found (rangeScan w startKey endKey)).

(** A ledger whose iterator delivers the first entry of the range and
    fails at the next call. *)
Definition interrupted : iterators.RangeQueries :=
  λ w startKey endKey,
    Found (map Found (take 1 (rangeScan w startKey endKey))
           ++ [Failed "iterator is closed"]).

(** ** The derived id in the words of the specification *)

Definition isDecimalDigit (c : ascii) : bool :=
  (byte_of "0" <=? byte_of c) && (byte_of c <=? byte_of "9").

Fixpoint allBytes (P : ascii → bool) (s : string) : bool :=
  match s with
  | EmptyString => true
  | String c t => P c && allBytes P t
  end.

Definition startsWith (P : ascii → bool) (s : string) : bool :=
  match s with
  | EmptyString => false
  | String c _ => P c
  end.

(** [digits] is the first maximal run of decimal digits of [id], from the
    left, and is empty when [id] has no digit: [id] is [pre], [digits]
    and [post] where [pre] has no digit, [digits] is made of digits and
    [post] does not start with one, and nothing follows an empty run. *)
Definition firstDigitRun (id digits : string) : Prop :=
  ∃ pre post,
    id = pre +:+ digits +:+ post
    ∧ allBytes (λ c, negb (isDecimalDigit c)) pre = true
    ∧ allBytes isDecimalDigit digits = true
    ∧ startsWith isDecimalDigit post = false
    ∧ (digits = EmptyString → post = EmptyString).

(** An id that can stand in a list of ids joined by commas. *)
Definition noComma (s : string) : bool :=
  allBytes (λ c, negb (Ascii.eqb c ",")) s.

(** A name or a value that the encoder writes as it is: ASCII without
    the quotation mark, the backslash, the HTML characters and control
    characters. *)
Definition plain (s : string) : bool :=
  allBytes (λ c, json.htmlSafeSet (byte_of c)) s.

(** ** Definitions for the proofs *)

(** The pattern of [CreateResult]. *)
Definition digitsRe : regexp.Regexp := regexp.ClassPlus "0" "9".

(** The rune that [DecodeRune] computes from an encoding of two, three
    and four bytes. *)

Definition rune2 (s0 s1 : N) : N :=
  N.lor (N.shiftl (N.land s0 utf8.mask2) 6) (N.land s1 utf8.maskx).

Definition rune3 (s0 s1 s2 : N) : N :=
  N.lor (N.lor (N.shiftl (N.land s0 utf8.mask3) 12)
               (N.shiftl (N.land s1 utf8.maskx) 6))
        (N.land s2 utf8.maskx).

Definition rune4 (s0 s1 s2 s3 : N) : N :=
  N.lor (N.lor (N.lor (N.shiftl (N.land s0 utf8.mask4) 18)
                      (N.shiftl (N.land s1 utf8.maskx) 12))
               (N.shiftl (N.land s2 utf8.maskx) 6))
        (N.land s3 utf8.maskx).

(** What the decoder finds in the document written for the fields [fs]
    of [src]. *)
Definition written {T} (src : T) (fs : list (json.Field T))
  : list (string * json.Value) :=
  map (λ f, (json.name f, json.JString (json.get f src))) fs.

(** A field that [Marshal] writes so that [Unmarshal] reads it back: the
    name is written as it is and the value is valid UTF-8. *)
Definition encodable {T} (src : T) (f : json.Field T) : Prop :=
  plain (json.name f) = true ∧ utf8.ValidString (json.get f src) = true.

(** What [AllPatients] makes of a key and its value. *)
Definition queryResultOf (kv : queryresult.KV) : QueryResult :=
  {| QueryResultKey := queryresult.Key kv;
     QueryResultRecord :=
       (json.Unmarshal (queryresult.Value kv) newPatient).1 |}.

(** ** World states of the examples *)

Definition ann : Patient :=
  {| Name := "Ann"; PreExistingConditions := "c1"; DiagnosisID := "d1";
     StatusID := "st1"; KeyID := "k" |}.
Definition bob : Patient :=
  {| Name := "Bob"; PreExistingConditions := "c2"; DiagnosisID := "d2";
     StatusID := "st2"; KeyID := "k" |}.
Definition cyd : Patient :=
  {| Name := "Cyd"; PreExistingConditions := "c3"; DiagnosisID := "d3";
     StatusID := "st3"; KeyID := "k" |}.

Definition threePatients : WorldState :=
  <["s3" := json.Marshal cyd]>
    (<["s2" := json.Marshal bob]> (<["s1" := json.Marshal ann]> ∅)).

Definition proposalA : Proposal :=
  {| RequesterID := "alice"; RequestedID := "bob"; PatientsIDs := "s1,s2";
     ProposalKeyID := "k"; ProposalValue := "vA" |}.
Definition proposalB : Proposal :=
  {| RequesterID := "carol"; RequestedID := "dave"; PatientsIDs := "s3";
     ProposalKeyID := "k"; ProposalValue := "vB" |}.

Definition threeProposals : WorldState :=
  <["X7y" := json.Marshal proposalB]>
    (<["P7" := json.Marshal proposalA]>
       (<["P7x2" := json.Marshal proposalA]> ∅)).

(** Under [p1] bytes that are not a JSON document, under [p2] a JSON
    document that is not an object. *)
Definition unparseable : WorldState :=
  <["p2" := "[]"]> (<["p1" := "not json"]> ∅).

(** * Properties *)

(** ** Strings and bytes *)

Lemma append_cons c s t : String c s +:+ t = String c (s +:+ t).
Proof. reflexivity. Qed.

Lemma append_nil_l s : EmptyString +:+ s = s.
Proof. reflexivity. Qed.

Lemma append_nil_r s : s +:+ EmptyString = s.
Proof. induction s as [|c s IH]; [done |]. by rewrite append_cons, IH. Qed.

Lemma append_assoc s t u : (s +:+ t) +:+ u = s +:+ t +:+ u.
Proof. induction s as [|c s IH]; [done |]. by rewrite !append_cons, IH. Qed.

Lemma length_append s t :
  String.length (s +:+ t) = (String.length s + String.length t)%nat.
Proof. induction s as [|c s IH]; [done |]. rewrite append_cons. simpl. lia. Qed.

Lemma byte_of_bounded c : byte_of c < 256.
Proof. apply N_ascii_bounded. Qed.

Lemma of_byte_of c : of_byte (byte_of c) = c.
Proof. apply ascii_N_embedding. Qed.

Lemma lor_low a b n : b < 2 ^ n → N.lor (a * 2 ^ n) b = a * 2 ^ n + b.
Proof.
  intros Hb. rewrite N.add_nocarry_lxor, N.lxor_lor; try done.
  all: apply N.bits_inj; intros m; rewrite N.land_spec, N.bits_0.
  all: destruct (N.lt_ge_cases m n) as [Hm | Hm].
  all: try (by rewrite N.mul_pow2_bits_low).
  all: destruct (N.eq_dec b 0) as [-> | Hb0];
    [by rewrite N.bits_0, andb_false_r |].
  all: rewrite (N.bits_above_log2 b m), andb_false_r; [done |].
  all: apply N.log2_lt_pow2; [lia |].
  all: eapply N.lt_le_trans; [exact Hb | by apply N.pow_le_mono_r].
Qed.

Lemma lor_disjoint a b n k :
  2 ^ n = k → a mod k = 0 → b < k → N.lor a b = a + b.
Proof.
  intros <- Ha Hb.
  assert (a = a / 2 ^ n * 2 ^ n) as ->.
  { rewrite (N.div_mod a (2 ^ n)) at 1 by (apply N.pow_nonzero; lia). lia. }
  by apply lor_low.
Qed.

Ltac bits_to_arith :=
  unfold to_byte, utf8.mask2, utf8.mask3, utf8.mask4, utf8.maskx,
    utf8.t2, utf8.t3, utf8.t4, utf8.tx in *;
  change 0x3F with (N.ones 6) in *;
  change 0x1F with (N.ones 5) in *;
  change 0x0F with (N.ones 4) in *;
  change 0x07 with (N.ones 3) in *;
  rewrite ?N.land_ones, ?N.shiftl_mul_pow2, ?N.shiftr_div_pow2 in *;
  change (2 ^ 3) with 8 in *; change (2 ^ 4) with 16 in *;
  change (2 ^ 5) with 32 in *; change (2 ^ 6) with 64 in *;
  change (2 ^ 12) with 4096 in *; change (2 ^ 18) with 262144 in *.

Ltac arith := zify; Z.to_euclidean_division_equations; lia.


Lemma rune2_value s0 s1 :
  0xC0 ≤ s0 < 0xE0 → 0x80 ≤ s1 ≤ 0xBF →
  rune2 s0 s1 = (s0 - 0xC0) * 64 + (s1 - 0x80).
Proof.
  intros H0 H1. unfold rune2. bits_to_arith.
  rewrite (lor_disjoint (s0 mod 32 * 64) (s1 mod 64) 6 64) by (done || arith).
  arith.
Qed.

Lemma rune3_value s0 s1 s2 :
  0xE0 ≤ s0 < 0xF0 → 0x80 ≤ s1 ≤ 0xBF → 0x80 ≤ s2 ≤ 0xBF →
  rune3 s0 s1 s2 = (s0 - 0xE0) * 4096 + (s1 - 0x80) * 64 + (s2 - 0x80).
Proof.
  intros H0 H1 H2. unfold rune3. bits_to_arith.
  rewrite (lor_disjoint (s0 mod 16 * 4096) (s1 mod 64 * 64) 12 4096)
    by (done || arith).
  rewrite (lor_disjoint _ (s2 mod 64) 6 64) by (done || arith).
  arith.
Qed.

Lemma rune4_value s0 s1 s2 s3 :
  0xF0 ≤ s0 < 0xF8 → 0x80 ≤ s1 ≤ 0xBF → 0x80 ≤ s2 ≤ 0xBF →
  0x80 ≤ s3 ≤ 0xBF →
  rune4 s0 s1 s2 s3
  = (s0 - 0xF0) * 262144 + (s1 - 0x80) * 4096 + (s2 - 0x80) * 64 + (s3 - 0x80).
Proof.
  intros H0 H1 H2 H3. unfold rune4. bits_to_arith.
  rewrite (lor_disjoint (s0 mod 8 * 262144) (s1 mod 64 * 4096) 18 262144)
    by (done || arith).
  rewrite (lor_disjoint _ (s2 mod 64 * 64) 12 4096) by (done || arith).
  rewrite (lor_disjoint _ (s3 mod 64) 6 64) by (done || arith).
  arith.
Qed.

Lemma cont_byte x :
  N.lor utf8.tx (N.land (to_byte x) utf8.maskx) = 0x80 + x mod 64.
Proof.
  bits_to_arith.
  rewrite (lor_disjoint 128 _ 6 64) by (done || arith). arith.
Qed.

Lemma EncodeRune_1 r :
  r ≤ 0x7F → utf8.EncodeRune r = String (of_byte r) EmptyString.
Proof.
  intros Hr. unfold utf8.EncodeRune, utf8.rune1Max.
  destruct (N.leb_spec r 0x7F); [| lia].
  unfold to_byte. by rewrite N.mod_small by lia.
Qed.

Lemma EncodeRune_2 r :
  0x7F < r ≤ 0x7FF →
  utf8.EncodeRune r
  = String (of_byte (0xC0 + r / 64))
      (String (of_byte (0x80 + r mod 64)) EmptyString).
Proof.
  intros Hr. unfold utf8.EncodeRune, utf8.rune1Max, utf8.rune2Max.
  destruct (N.leb_spec r 0x7F); [lia |].
  destruct (N.leb_spec r 0x7FF); [| lia].
  rewrite cont_byte. do 2 f_equal. bits_to_arith.
  rewrite (lor_disjoint 192 _ 5 32) by (done || arith). arith.
Qed.

Lemma EncodeRune_3 r :
  0x7FF < r ≤ 0xFFFF → ¬ (0xD800 ≤ r ≤ 0xDFFF) →
  utf8.EncodeRune r
  = String (of_byte (0xE0 + r / 4096))
      (String (of_byte (0x80 + r / 64 mod 64))
         (String (of_byte (0x80 + r mod 64)) EmptyString)).
Proof.
  intros Hr Hs.
  unfold utf8.EncodeRune, utf8.rune1Max, utf8.rune2Max, utf8.rune3Max,
    utf8.MaxRune, utf8.surrogateMin, utf8.surrogateMax.
  destruct (N.leb_spec r 0x7F); [lia |].
  destruct (N.leb_spec r 0x7FF); [lia |].
  destruct (N.ltb_spec 0x10FFFF r); [lia |].
  destruct (N.leb_spec 0xD800 r), (N.leb_spec r 0xDFFF); try lia; simpl.
  all: destruct (N.leb_spec r 0xFFFF); [| lia].
  all: unfold utf8.encode3; rewrite !cont_byte.
  all: bits_to_arith.
  all: rewrite (lor_disjoint 224 _ 4 16) by (done || arith).
  all: repeat f_equal; arith.
Qed.

Lemma EncodeRune_4 r :
  0xFFFF < r ≤ 0x10FFFF →
  utf8.EncodeRune r
  = String (of_byte (0xF0 + r / 262144))
      (String (of_byte (0x80 + r / 4096 mod 64))
         (String (of_byte (0x80 + r / 64 mod 64))
            (String (of_byte (0x80 + r mod 64)) EmptyString))).
Proof.
  intros Hr.
  unfold utf8.EncodeRune, utf8.rune1Max, utf8.rune2Max, utf8.rune3Max,
    utf8.MaxRune, utf8.surrogateMin, utf8.surrogateMax.
  destruct (N.leb_spec r 0x7F); [lia |].
  destruct (N.leb_spec r 0x7FF); [lia |].
  destruct (N.ltb_spec 0x10FFFF r); [lia |].
  destruct (N.leb_spec 0xD800 r), (N.leb_spec r 0xDFFF); try lia; simpl.
  destruct (N.leb_spec r 0xFFFF); [lia |].
  rewrite !cont_byte. bits_to_arith.
  rewrite (lor_disjoint 240 _ 3 8) by (done || arith).
  repeat f_equal; arith.
Qed.

(** ** Fuel

    The loops and the parser take their fuel from the length of their
    input.  It is enough: what they compute is the same with any fuel
    from there on. *)

Section Fuel.
Local Open Scope nat_scope.

Lemma skipSpace_length s : String.length (json.skipSpace s) ≤ String.length s.
Proof.
  induction s as [|c s IH]; simpl; [done |].
  destruct (json.isSpace c); simpl; lia.
Qed.

Lemma skipSpace_cons s c t :
  json.skipSpace s = String c t → String.length t < String.length s.
Proof.
  intros H. pose proof (skipSpace_length s) as Hlen. rewrite H in Hlen.
  simpl in Hlen. lia.
Qed.

Lemma scanString_length s lit rest :
  json.scanString s = Some (lit, rest) →
  String.length rest < String.length s.
Proof.
  remember (String.length s) as n eqn:Hn. revert s Hn lit rest.
  induction n as [n IH] using lt_wf_ind. intros s -> lit rest.
  destruct s as [|c t]; [done |]. simpl.
  repeat case_match; try done; intros Hs; simplify_option_eq;
    repeat match goal with p : _ * _ |- _ => destruct p end;
    simplify_eq; try (simpl; lia);
    match goal with
    | H : json.scanString ?u = Some (_, ?r) |- _ =>
      eapply IH in H; [| | reflexivity]; simpl in *; lia
    end.
Qed.

Lemma stringLit_length s str rest :
  json.stringLit s = Some (str, rest) →
  String.length rest < String.length s.
Proof.
  unfold json.stringLit. intros H. simplify_option_eq.
  destruct (json.scanString s) as [[lit r]|] eqn:Hs; simplify_option_eq.
  by apply scanString_length in Hs.
Qed.

Lemma digits_length s d rest :
  json.digits s = (d, rest) → String.length rest ≤ String.length s.
Proof.
  revert d rest. induction s as [|c s IH]; intros d rest; simpl.
  - by intros [= <- <-].
  - destruct (json.isDigit c).
    + destruct (json.digits s) as [d' rest'] eqn:Hd. intros [= <- <-].
      specialize (IH _ _ eq_refl). lia.
    + intros [= <- <-]. simpl. lia.
Qed.

Lemma scanNumber_length s lit rest :
  json.scanNumber s = Some (lit, rest) →
  String.length rest ≤ String.length s.
Proof.
  unfold json.scanNumber, json.scanInt, json.scanFrac, json.scanExp.
  intros H.
  repeat (case_match || simplify_option_eq);
    repeat match goal with
           | H : json.digits _ = _ |- _ => apply digits_length in H
           end; simpl in *; lia.
Qed.

Lemma stripPrefix_length p s t :
  json.stripPrefix p s = Some t → String.length t ≤ String.length s.
Proof.
  revert s. induction p as [|a p IH]; intros [|b s]; simpl; try done.
  - by intros [= <-].
  - by intros [= <-].
  - destruct (Ascii.eqb a b); [| done]. intros H%IH. lia.
Qed.

Ltac lengths :=
  repeat match goal with
         | H : json.stringLit _ = Some _ |- _ => apply stringLit_length in H
         | H : json.scanNumber _ = Some _ |- _ => apply scanNumber_length in H
         | H : json.stripPrefix _ _ = Some _ |- _ =>
           apply stripPrefix_length in H
         end.

(** One step through the body of the parser in the hypothesis [H]. *)
Ltac parser_step H :=
  lazymatch type of H with
  | match json.skipSpace ?s with _ => _ end = _ =>
    let E := fresh "Hs" in
    destruct (json.skipSpace s) as [|? ?] eqn:E;
    [discriminate H | apply skipSpace_cons in E]
  | (if ?b then _ else _) = _ => destruct b eqn:?
  | (?m ≫= _) = _ =>
    let E := fresh "Hm" in
    first [destruct m as [[? ?]|] eqn:E | destruct m as [?|] eqn:E];
    [cbn [mbind option_bind] in H | discriminate H]
  | Some _ = Some _ => injection H as <- <-
  | None = Some _ => discriminate H
  end.

(** What follows a value is not longer than the document it was read
    from. *)
Lemma value_length fuel :
  (∀ s v rest, json.value fuel s = Some (v, rest) →
     String.length rest ≤ String.length s)
  ∧ (∀ s kvs rest, json.members fuel s = Some (kvs, rest) →
     String.length rest ≤ String.length s)
  ∧ (∀ s vs rest, json.elements fuel s = Some (vs, rest) →
     String.length rest ≤ String.length s).
Proof.
  induction fuel as [|fuel (IHv & IHm & IHe)]; [done |].
  split_and!; intros s x rest H;
    cbn [json.value json.members json.elements] in H;
    repeat parser_step H;
    repeat match goal with
           | H : json.value fuel _ = Some _ |- _ => apply IHv in H
           | H : json.members fuel _ = Some _ |- _ => apply IHm in H
           | H : json.elements fuel _ = Some _ |- _ => apply IHe in H
           end; lengths; simpl in *; lia.
Qed.

(** One step through the body of the parser on both sides of the goal. *)
Ltac parser_step_goal :=
  match goal with
  | |- context [json.skipSpace ?s] =>
    let E := fresh "Hs" in
    destruct (json.skipSpace s) as [|? ?] eqn:E;
    [reflexivity | apply skipSpace_cons in E]
  | |- context [if ?b then _ else _] => destruct b eqn:?
  | |- (?m ≫= _) = (?m ≫= _) =>
    let E := fresh "Hm" in
    first [destruct m as [[? ?]|] eqn:E | destruct m as [?|] eqn:E];
    [cbn [mbind option_bind] | reflexivity]
  | |- ?x = ?x => reflexivity
  end.

(** With enough fuel for the length of the document, more fuel changes
    nothing. *)
Lemma value_fuel f1 f2 :
  (∀ s, 2 * String.length s + 2 ≤ f1 → 2 * String.length s + 2 ≤ f2 →
     json.value f1 s = json.value f2 s)
  ∧ (∀ s, 2 * String.length s + 1 ≤ f1 → 2 * String.length s + 1 ≤ f2 →
     json.members f1 s = json.members f2 s)
  ∧ (∀ s, 2 * String.length s + 3 ≤ f1 → 2 * String.length s + 3 ≤ f2 →
     json.elements f1 s = json.elements f2 s).
Proof.
  revert f2. induction f1 as [|n IH]; intros [|m];
    try (split_and!; intros; lia).
  destruct (IH m) as (IHv & IHm & IHe). clear IH.
  pose proof (value_length m) as (Lv & Lm & Le).
  split_and!; intros s H1 H2;
    cbn [json.value json.members json.elements].
  - repeat (parser_step_goal
            || (rewrite IHm by lia) || (rewrite IHe by lia)).
  - repeat (parser_step_goal || lengths
            || (rewrite IHv by lia) || (rewrite IHm by lia)
            || match goal with
               | H : json.value m _ = Some _ |- _ => apply Lv in H
               end).
  - repeat (parser_step_goal || lengths
            || (rewrite IHv by lia) || (rewrite IHe by lia)
            || match goal with
               | H : json.value m _ = Some _ |- _ => apply Lv in H
               end).
Qed.

(** [parse] gives the syntax of the document with any fuel above the
    one it takes. *)
Lemma parse_fuel fuel data :
  2 * String.length data + 2 ≤ fuel →
  json.value fuel data = json.value (2 * String.length data + 2) data.
Proof. intros H. by apply value_fuel. Qed.

Lemma slice_from_length n s :
  String.length (slice_from n s) ≤ String.length s.
Proof.
  revert s. induction n as [|n IH]; intros [|c s]; simpl; try lia.
  specialize (IH s). lia.
Qed.

Lemma slice_from_shorter n c s :
  1 ≤ n → String.length (slice_from n (String c s)) ≤ String.length s.
Proof.
  destruct n as [|n]; [lia |]. intros _. simpl. apply slice_from_length.
Qed.

(** A rune at the start of a string that is not empty is at least one
    byte wide. *)
Lemma DecodeRune_width c t r size :
  utf8.DecodeRuneInString (String c t) = (r, size) → 1 ≤ size.
Proof.
  unfold utf8.DecodeRuneInString.
  repeat match goal with
         | |- context [match ?x with _ => _ end] => destruct x
         end; intros [= <- <-]; lia.
Qed.

(** The loops over the runes of a string do the same with any fuel
    from the length of the string on. *)
Lemma stringLoop_fuel f1 f2 s :
  String.length s ≤ f1 → String.length s ≤ f2 →
  json.stringLoop f1 s = json.stringLoop f2 s.
Proof.
  revert f2 s. induction f1 as [|n IH]; intros [|m] [|c t] H1 H2;
    try done; try (simpl in *; lia).
  cbn [json.stringLoop]. simpl in H1, H2.
  destruct (utf8.DecodeRuneInString (String c t)) as [r size] eqn:Hdec.
  pose proof (DecodeRune_width _ _ _ _ Hdec) as Hsize.
  pose proof (slice_from_shorter size c t Hsize) as Hlen.
  rewrite (IH m t) by lia.
  rewrite (IH m (slice_from size (String c t))) by lia.
  done.
Qed.

Lemma validLoop_fuel f1 f2 s :
  String.length s ≤ f1 → String.length s ≤ f2 →
  utf8.validLoop f1 s = utf8.validLoop f2 s.
Proof.
  revert f2 s. induction f1 as [|n IH]; intros [|m] [|c t] H1 H2;
    try done; try (simpl in *; lia).
  cbn [utf8.validLoop]. simpl in H1, H2.
  destruct (utf8.DecodeRuneInString (String c t)) as [r size] eqn:Hdec.
  pose proof (DecodeRune_width _ _ _ _ Hdec) as Hsize.
  pose proof (slice_from_shorter size c t Hsize) as Hlen.
  by rewrite (IH m (slice_from size (String c t))) by lia.
Qed.

Lemma unquoteLoop_fuel f1 f2 s :
  String.length s ≤ f1 → String.length s ≤ f2 →
  json.unquoteLoop f1 s = json.unquoteLoop f2 s.
Proof.
  revert f2 s. induction f1 as [|n IH]; intros [|m] [|c t] H1 H2;
    try done; try (simpl in *; lia).
  cbn [json.unquoteLoop]. simpl in H1, H2.
  destruct (utf8.DecodeRune (String c t)) as [r size] eqn:Hdec.
  pose proof (DecodeRune_width _ _ _ _ Hdec) as Hsize.
  pose proof (slice_from_shorter size c t Hsize) as Hlen.
  pose proof (slice_from_shorter 6 c t) as Hlen6.
  pose proof (slice_from_length 6 (slice_from 6 (String c t))) as Hlen12.
  rewrite (IH m (slice_from size (String c t))) by lia.
  rewrite (IH m t) by lia.
  rewrite (IH m (slice_from 6 (String c t))) by lia.
  rewrite (IH m (slice_from 6 (slice_from 6 (String c t)))) by lia.
  destruct t as [|e t1]; [done |].
  rewrite (IH m t1) by (simpl in *; lia).
  done.
Qed.

End Fuel.

(** ** UTF-8 *)

Lemma first_as b : utf8.first b = utf8.as_ → b < 0x80.
Proof.
  unfold utf8.first.
  repeat match goal with
         | |- context [if ?c then _ else _] => destruct c eqn:?
         end; try discriminate.
  intros _. by apply N.ltb_lt.
Qed.

Lemma first_sz b size lo hi :
  utf8.first b = utf8.sz size lo hi →
  0x80 ≤ lo ∧ hi ≤ 0xBF ∧
  ((size = 2%nat ∧ 0xC2 ≤ b < 0xE0)
   ∨ (size = 3%nat ∧ 0xE0 ≤ b < 0xF0
      ∧ (b = 0xE0 → lo = 0xA0) ∧ (b = 0xED → hi = 0x9F))
   ∨ (size = 4%nat ∧ 0xF0 ≤ b ≤ 0xF4
      ∧ (b = 0xF0 → lo = 0x90) ∧ (b = 0xF4 → hi = 0x8F))).
Proof.
  unfold utf8.first, utf8.locb, utf8.hicb.
  repeat match goal with
         | |- context [if ?c then _ else _] => destruct c eqn:?
         end; try discriminate; intros [= <- <- <-];
  repeat match goal with
         | H : (_ <? _) = true |- _ => apply N.ltb_lt in H
         | H : (_ <? _) = false |- _ => apply N.ltb_ge in H
         | H : (_ =? _) = true |- _ => apply N.eqb_eq in H
         | H : (_ =? _) = false |- _ => apply N.eqb_neq in H
         end; lia.
Qed.

Lemma outside_false lo hi b : utf8.outside lo hi b = false → lo ≤ b ≤ hi.
Proof.
  unfold utf8.outside. intros [H1 H2]%orb_false_iff.
  apply N.ltb_ge in H1, H2. lia.
Qed.

Lemma bytes_eq2 b0 b1 c0 c1 :
  b0 = byte_of c0 → b1 = byte_of c1 →
  String (of_byte b0) (String (of_byte b1) EmptyString)
  = String c0 (String c1 EmptyString).
Proof. intros -> ->. by rewrite !of_byte_of. Qed.

Lemma bytes_eq3 b0 b1 b2 c0 c1 c2 :
  b0 = byte_of c0 → b1 = byte_of c1 → b2 = byte_of c2 →
  String (of_byte b0) (String (of_byte b1) (String (of_byte b2) EmptyString))
  = String c0 (String c1 (String c2 EmptyString)).
Proof. intros -> -> ->. by rewrite !of_byte_of. Qed.

Lemma bytes_eq4 b0 b1 b2 b3 c0 c1 c2 c3 :
  b0 = byte_of c0 → b1 = byte_of c1 → b2 = byte_of c2 → b3 = byte_of c3 →
  String (of_byte b0) (String (of_byte b1)
    (String (of_byte b2) (String (of_byte b3) EmptyString)))
  = String c0 (String c1 (String c2 (String c3 EmptyString))).
Proof. intros -> -> -> ->. by rewrite !of_byte_of. Qed.

(** A valid encoding at the start of a string: its bytes, none of them
    ASCII, are what [EncodeRune] writes for the rune, and the rune is
    decoded from them whatever follows. *)
Lemma DecodeRune_valid c0 r0 r size :
  utf8.DecodeRuneInString (String c0 r0) = (r, size) →
  (r, size) ≠ (utf8.RuneError, 1%nat) →
  ∃ bytes rest,
    String c0 r0 = bytes +:+ rest
    ∧ String.length bytes = size
    ∧ (1 ≤ size)%nat
    ∧ utf8.EncodeRune r = bytes
    ∧ (0x80 ≤ byte_of c0 →
       allBytes (λ c, 0x80 <=? byte_of c) bytes = true)
    ∧ ∀ t, utf8.DecodeRuneInString (bytes +:+ t) = (r, size).
Proof.
  unfold utf8.DecodeRuneInString.
  pose proof (byte_of_bounded c0) as Hb0.
  destruct (utf8.first (byte_of c0)) as [| |sz lo hi] eqn:Hfirst.
  - (* one byte *)
    intros [= <- <-] _. pose proof (first_as _ Hfirst).
    exists (String c0 EmptyString), r0. split_and!; try done; try lia.
    + rewrite EncodeRune_1 by lia. by rewrite of_byte_of.
    + intros t. rewrite append_cons. simpl. by rewrite Hfirst.
  - intros [= <- <-] Hne. by destruct Hne.
  - pose proof (first_sz _ _ _ _ Hfirst) as (Hlo & Hhi & Hsz).
    destruct r0 as [|c1 r1].
    { destruct Hsz as [(-> & _) | [(-> & _) | (-> & _)]]; simpl;
        intros [= <- <-] Hne; by destruct Hne. }
    pose proof (byte_of_bounded c1) as Hb1.
    destruct Hsz
      as [(-> & H0) | [(-> & H0 & Hlo' & Hhi') | (-> & H0 & Hlo' & Hhi')]].
    + (* two bytes *)
      simpl.
      destruct (utf8.outside lo hi (byte_of c1)) eqn:Ho1;
        [intros [= <- <-] Hne; by destruct Hne |].
      pose proof (outside_false _ _ _ Ho1) as Hs1.
      intros [= <- <-] _.
      exists (String c0 (String c1 EmptyString)), r1.
      fold (rune2 (byte_of c0) (byte_of c1)).
      assert (Hr := rune2_value (byte_of c0) (byte_of c1)).
      split_and!; try done; try lia.
      * rewrite EncodeRune_2 by lia. rewrite Hr by lia.
        apply bytes_eq2; arith.
      * intros _. simpl.
        rewrite !andb_true_iff, !N.leb_le. split_and!; [lia | lia | done].
      * intros t. rewrite !append_cons, append_nil_l. simpl.
        by rewrite Hfirst, Ho1.
    + (* three bytes *)
      destruct r1 as [|c2 r2];
        [simpl; intros [= <- <-] Hne; by destruct Hne |].
      pose proof (byte_of_bounded c2) as Hb2.
      simpl.
      destruct (utf8.outside lo hi (byte_of c1)) eqn:Ho1;
        [intros [= <- <-] Hne; by destruct Hne |].
      pose proof (outside_false _ _ _ Ho1) as Hs1.
      destruct (utf8.outside utf8.locb utf8.hicb (byte_of c2)) eqn:Ho2;
        [intros [= <- <-] Hne; by destruct Hne |].
      pose proof (outside_false _ _ _ Ho2) as Hs2.
      unfold utf8.locb, utf8.hicb in Hs2.
      intros [= <- <-] _.
      exists (String c0 (String c1 (String c2 EmptyString))), r2.
      fold (rune3 (byte_of c0) (byte_of c1) (byte_of c2)).
      assert (Hr := rune3_value (byte_of c0) (byte_of c1) (byte_of c2)).
      split_and!; try done; try lia.
      * rewrite EncodeRune_3 by lia. rewrite Hr by lia.
        apply bytes_eq3; arith.
      * intros _. simpl.
        rewrite !andb_true_iff, !N.leb_le. split_and!; [lia | lia | lia | done].
      * intros t. rewrite !append_cons, append_nil_l. simpl.
        by rewrite Hfirst, Ho1, Ho2.
    + (* four bytes *)
      destruct r1 as [|c2 r2];
        [simpl; intros [= <- <-] Hne; by destruct Hne |].
      pose proof (byte_of_bounded c2) as Hb2.
      destruct r2 as [|c3 r3];
        [simpl; intros [= <- <-] Hne; by destruct Hne |].
      pose proof (byte_of_bounded c3) as Hb3.
      simpl.
      destruct (utf8.outside lo hi (byte_of c1)) eqn:Ho1;
        [intros [= <- <-] Hne; by destruct Hne |].
      pose proof (outside_false _ _ _ Ho1) as Hs1.
      destruct (utf8.outside utf8.locb utf8.hicb (byte_of c2)) eqn:Ho2;
        [intros [= <- <-] Hne; by destruct Hne |].
      pose proof (outside_false _ _ _ Ho2) as Hs2.
      unfold utf8.locb, utf8.hicb in Hs2.
      destruct (utf8.outside utf8.locb utf8.hicb (byte_of c3)) eqn:Ho3;
        [intros [= <- <-] Hne; by destruct Hne |].
      pose proof (outside_false _ _ _ Ho3) as Hs3.
      unfold utf8.locb, utf8.hicb in Hs3.
      intros [= <- <-] _.
      exists (String c0 (String c1 (String c2 (String c3 EmptyString)))), r3.
      fold (rune4 (byte_of c0) (byte_of c1) (byte_of c2) (byte_of c3)).
      assert (Hr := rune4_value (byte_of c0) (byte_of c1) (byte_of c2)
                      (byte_of c3)).
      split_and!; try done; try lia.
      * rewrite EncodeRune_4 by lia. rewrite Hr by lia.
        apply bytes_eq4; arith.
      * intros _. simpl.
        rewrite !andb_true_iff, !N.leb_le.
        split_and!; [lia | lia | lia | lia | done].
      * intros t. rewrite !append_cons, append_nil_l. simpl.
        by rewrite Hfirst, Ho1, Ho2, Ho3.
Qed.

(** ** JSON *)

Lemma slice_from_append bytes rest :
  slice_from (String.length bytes) (bytes +:+ rest) = rest.
Proof. induction bytes as [|c bytes IH]; [done |]. by rewrite append_cons. Qed.

Lemma slice_to_append bytes rest :
  slice_to (String.length bytes) (bytes +:+ rest) = bytes.
Proof.
  induction bytes as [|c bytes IH]; [done |].
  rewrite append_cons. simpl. by rewrite IH.
Qed.

Lemma ascii_eqb_byte c d : Ascii.eqb c d = (byte_of c =? byte_of d).
Proof.
  destruct (Ascii.eqb_spec c d) as [-> | Hne].
  - by rewrite N.eqb_refl.
  - symmetry. apply N.eqb_neq. intros Heq. apply Hne.
    by rewrite <- (of_byte_of c), <- (of_byte_of d), Heq.
Qed.

(** *** Scanning what the encoder writes *)

Lemma scanString_plain c X lit rest :
  0x20 ≤ byte_of c → byte_of c ≠ 0x22 → byte_of c ≠ 0x5C →
  json.scanString X = Some (lit, rest) →
  json.scanString (String c X) = Some (String c lit, rest).
Proof.
  intros H1 H2 H3 HX. simpl. rewrite !ascii_eqb_byte.
  change (byte_of quote) with 0x22. change (byte_of "\") with 0x5C.
  rewrite (proj2 (N.eqb_neq _ _) H2), (proj2 (N.eqb_neq _ _) H3).
  rewrite (proj2 (N.ltb_ge _ _) H1). by rewrite HX.
Qed.

Lemma scanString_bytes bytes X lit rest :
  allBytes (λ c, 0x80 <=? byte_of c) bytes = true →
  json.scanString X = Some (lit, rest) →
  json.scanString (bytes +:+ X) = Some (bytes +:+ lit, rest).
Proof.
  intros Hall HX. induction bytes as [|c bytes IH]; [done |].
  simpl in Hall. apply andb_true_iff in Hall as [Hc Hall].
  apply N.leb_le in Hc. rewrite !append_cons.
  apply scanString_plain; [lia | lia | lia | by apply IH].
Qed.

Lemma scanString_escapeByte c X lit rest :
  byte_of c < 0x80 → json.htmlSafeSet (byte_of c) = false →
  json.scanString X = Some (lit, rest) →
  json.scanString (json.escapeByte c +:+ X)
  = Some (json.escapeByte c +:+ lit, rest).
Proof.
  intros Hc Hsafe HX.
  destruct c as [[] [] [] [] [] [] [] []];
    try discriminate Hsafe; try (by vm_compute in Hc);
    cbv [json.escapeByte]; simpl; rewrite ?append_cons, ?append_nil_l; simpl;
    by rewrite HX.
Qed.

Lemma DecodeRune_ascii c t :
  byte_of c < 0x80 →
  utf8.DecodeRuneInString (String c t) = (byte_of c, 1%nat).
Proof.
  intros Hc. unfold utf8.DecodeRuneInString, utf8.first.
  by rewrite (proj2 (N.ltb_lt _ _) Hc).
Qed.

Lemma rune_invalid_spec r size :
  (r =? utf8.RuneError) && (size =? 1)%nat = false ↔
  (r, size) ≠ (utf8.RuneError, 1%nat).
Proof.
  rewrite andb_false_iff, N.eqb_neq, Nat.eqb_neq.
  split; [intros [H | H] [= -> ->]; done |].
  intros H. destruct (N.eq_dec r utf8.RuneError) as [-> | ?]; [| by left].
  right. intros ->. by apply H.
Qed.

(** The scanner reads what the encoder writes for any string [s] up to
    the closing quotation mark. *)
Lemma scanString_stringLoop fuel s rest :
  json.scanString (json.stringLoop fuel s +:+ String quote rest)
  = Some (json.stringLoop fuel s, rest).
Proof.
  revert s. induction fuel as [|fuel IH]; intros s.
  { by destruct s. }
  destruct s as [|c t]; [done |].
  cbn [json.stringLoop].
  destruct (N.ltb_spec (byte_of c) utf8.RuneSelf) as [Hc | Hc].
  - destruct (json.htmlSafeSet (byte_of c)) eqn:Hsafe.
    + rewrite append_cons. unfold json.htmlSafeSet in Hsafe.
      rewrite !andb_true_iff, !negb_true_iff, !N.eqb_neq, N.leb_le in Hsafe.
      apply scanString_plain; [lia | lia | lia | apply IH].
    + rewrite append_assoc. by apply scanString_escapeByte.
  - destruct (utf8.DecodeRuneInString (String c t)) as [r size] eqn:Hdec.
    destruct ((r =? utf8.RuneError) && (size =? 1)%nat) eqn:Hinv.
    { rewrite append_assoc.
      change (String "\" "ufffd" +:+ ?X) with
        (String "\" (String "u" (String "f" (String "f" (String "f"
          (String "d" X)))))).
      simpl. by rewrite IH. }
    apply rune_invalid_spec in Hinv.
    destruct (DecodeRune_valid c t r size Hdec Hinv)
      as (bytes & rest' & Hs & Hlen & Hsize & Henc & Hhigh & Hdec').
    destruct ((r =? 0x2028) || (r =? 0x2029)) eqn:Hsep.
    + apply orb_true_iff in Hsep as [->%N.eqb_eq | ->%N.eqb_eq];
        rewrite !append_cons, append_nil_l; simpl; by rewrite IH.
    + rewrite append_assoc. rewrite Hs, <- Hlen, slice_to_append.
      apply scanString_bytes; [apply Hhigh; unfold utf8.RuneSelf in Hc; lia |].
      apply IH.
Qed.

(** *** Unquoting what the encoder writes *)

Lemma unquoteLoop_plain fuel c X :
  json.htmlSafeSet (byte_of c) = true →
  json.unquoteLoop (S fuel) (String c X) = String c <$> json.unquoteLoop fuel X.
Proof.
  intros Hsafe. unfold json.htmlSafeSet in Hsafe.
  rewrite !andb_true_iff, !negb_true_iff, !N.eqb_neq, N.leb_le, N.ltb_lt
    in Hsafe.
  cbn [json.unquoteLoop]. rewrite !ascii_eqb_byte.
  change (byte_of quote) with 0x22. change (byte_of "\") with 0x5C.
  rewrite (proj2 (N.eqb_neq _ 0x5C)), (proj2 (N.eqb_neq _ 0x22)) by lia.
  rewrite (proj2 (N.ltb_ge _ 0x20)) by lia. simpl.
  by rewrite (proj2 (N.ltb_lt _ utf8.RuneSelf)) by (unfold utf8.RuneSelf; lia).
Qed.

Lemma unquoteLoop_escapeByte fuel c X :
  byte_of c < 0x80 → json.htmlSafeSet (byte_of c) = false →
  json.unquoteLoop (S fuel) (json.escapeByte c +:+ X)
  = String c <$> json.unquoteLoop fuel X.
Proof.
  intros Hc Hsafe.
  destruct c as [[] [] [] [] [] [] [] []];
    try discriminate Hsafe; try (by vm_compute in Hc);
    cbv [json.escapeByte]; simpl; rewrite ?append_cons, ?append_nil_l;
    by destruct (json.unquoteLoop fuel X).
Qed.

Lemma unquoteLoop_rune fuel c bytes X r :
  0x80 ≤ byte_of c →
  utf8.DecodeRuneInString (String c bytes +:+ X)
    = (r, String.length (String c bytes)) →
  json.unquoteLoop (S fuel) (String c bytes +:+ X)
  = String.append (utf8.EncodeRune r) <$> json.unquoteLoop fuel X.
Proof.
  intros Hc Hdec. rewrite <- (slice_from_append (String c bytes) X) at 2.
  revert Hdec. generalize (String.length (String c bytes)). intros n Hdec.
  rewrite append_cons in *.
  cbn [json.unquoteLoop]. rewrite !ascii_eqb_byte.
  change (byte_of quote) with 0x22. change (byte_of "\") with 0x5C.
  rewrite (proj2 (N.eqb_neq _ 0x5C)), (proj2 (N.eqb_neq _ 0x22)) by lia.
  rewrite (proj2 (N.ltb_ge _ 0x20)) by lia. cbn [orb].
  rewrite (proj2 (N.ltb_ge _ utf8.RuneSelf)) by (unfold utf8.RuneSelf; lia).
  unfold utf8.DecodeRune. by rewrite Hdec.
Qed.

(** Unquoting gives back a string that is valid UTF-8. *)
Lemma unquoteLoop_stringLoop fuel s fuel' :
  utf8.validLoop fuel s = true →
  (String.length (json.stringLoop fuel s) ≤ fuel')%nat →
  json.unquoteLoop fuel' (json.stringLoop fuel s) = Some s.
Proof.
  revert s fuel'. induction fuel as [|fuel IH]; intros s fuel' Hvalid Hfuel.
  { destruct s; [by destruct fuel' | done]. }
  destruct s as [|c t]; [by destruct fuel' |].
  revert Hvalid Hfuel. cbn [json.stringLoop utf8.validLoop].
  destruct (N.ltb_spec (byte_of c) utf8.RuneSelf) as [Hc | Hc].
  - rewrite DecodeRune_ascii by done.
    replace ((byte_of c =? utf8.RuneError) && (1 =? 1)%nat) with false
      by (symmetry; apply andb_false_iff; left; apply N.eqb_neq;
          unfold utf8.RuneError, utf8.RuneSelf in *; lia).
    cbn [slice_from]. intros Hvalid.
    destruct (json.htmlSafeSet (byte_of c)) eqn:Hsafe.
    + intros Hfuel. destruct fuel' as [|fuel']; [simpl in Hfuel; lia |].
      rewrite unquoteLoop_plain by done.
      rewrite IH; [done | done | simpl in Hfuel; lia].
    + intros Hfuel. rewrite length_append in Hfuel.
      assert (1 ≤ String.length (json.escapeByte c))%nat by (simpl; lia).
      destruct fuel' as [|fuel']; [lia |].
      rewrite unquoteLoop_escapeByte by done.
      rewrite IH; [done | done | lia].
  - destruct (utf8.DecodeRuneInString (String c t)) as [r size] eqn:Hdec.
    destruct ((r =? utf8.RuneError) && (size =? 1)%nat) eqn:Hinv; [done |].
    apply rune_invalid_spec in Hinv.
    destruct (DecodeRune_valid c t r size Hdec Hinv)
      as (bytes & rest' & Hs & Hlen & Hsize & Henc & Hhigh & Hdec').
    rewrite Hs, <- Hlen, slice_to_append, slice_from_append.
    intros Hvalid.
    destruct ((r =? 0x2028) || (r =? 0x2029)) eqn:Hsep.
    + intros Hfuel. destruct fuel' as [|fuel']; [simpl in Hfuel; lia |].
      rewrite <- Henc.
      apply orb_true_iff in Hsep as [->%N.eqb_eq | ->%N.eqb_eq];
        rewrite !append_cons, append_nil_l; simpl;
        (rewrite IH; [done | done |]);
        rewrite !append_cons, append_nil_l in Hfuel; simpl in Hfuel; lia.
    + intros Hfuel. rewrite length_append in Hfuel.
      destruct fuel' as [|fuel']; [lia |].
      destruct bytes as [|c' bytes];
        [simpl in Hlen; lia |].
      assert (c' = c) as -> by (rewrite append_cons in Hs; congruence).
      rewrite (unquoteLoop_rune fuel' c bytes _ r);
        [| unfold utf8.RuneSelf in Hc; lia | by rewrite Hdec', Hlen].
      rewrite IH; [simpl; by rewrite Henc | done | lia].
Qed.

Lemma stringLit_encode s rest :
  utf8.ValidString s = true →
  json.stringLit (json.stringLoop (String.length s) s +:+ String quote rest)
  = Some (s, rest).
Proof.
  intros Hvalid. unfold json.stringLit.
  rewrite scanString_stringLoop. simpl. unfold json.unquote.
  by rewrite unquoteLoop_stringLoop.
Qed.

Lemma plain_htmlSafe_lt c :
  json.htmlSafeSet (byte_of c) = true → byte_of c < 0x80.
Proof.
  unfold json.htmlSafeSet. rewrite !andb_true_iff, N.ltb_lt. tauto.
Qed.

Lemma stringLoop_plain fuel s :
  plain s = true → (String.length s ≤ fuel)%nat → json.stringLoop fuel s = s.
Proof.
  revert s. induction fuel as [|fuel IH]; intros [|c s] Hplain Hfuel;
    try done; try (simpl in Hfuel; lia).
  simpl in Hplain. apply andb_true_iff in Hplain as [Hc Hplain].
  cbn [json.stringLoop].
  rewrite (proj2 (N.ltb_lt _ utf8.RuneSelf)) by by apply plain_htmlSafe_lt.
  rewrite Hc, IH; [done | done | simpl in Hfuel; lia].
Qed.

Lemma validLoop_plain fuel s :
  plain s = true → (String.length s ≤ fuel)%nat → utf8.validLoop fuel s = true.
Proof.
  revert s. induction fuel as [|fuel IH]; intros [|c s] Hplain Hfuel;
    try done; try (simpl in Hfuel; lia).
  simpl in Hplain. apply andb_true_iff in Hplain as [Hc Hplain].
  cbn [utf8.validLoop]. apply plain_htmlSafe_lt in Hc.
  rewrite DecodeRune_ascii by done.
  replace ((byte_of c =? utf8.RuneError) && (1 =? 1)%nat) with false
    by (symmetry; apply andb_false_iff; left; apply N.eqb_neq;
        unfold utf8.RuneError; lia).
  cbn [slice_from]. apply IH; [done | simpl in Hfuel; lia].
Qed.

Lemma stringLit_plain s rest :
  plain s = true → json.stringLit (s +:+ String quote rest) = Some (s, rest).
Proof.
  intros Hplain.
  rewrite <- (stringLoop_plain (String.length s) s) at 1 by done.
  apply stringLit_encode. by apply validLoop_plain.
Qed.

Section StructCodec.
Context {T : Type}.

Lemma value_string fuel t s rest :
  json.stringLit t = Some (s, rest) →
  json.value (S fuel) (String quote t) = Some (json.JString s, rest).
Proof. intros H. simpl. by rewrite H. Qed.

Lemma value_object fuel t kvs rest :
  json.members fuel (String quote t) = Some (kvs, rest) →
  json.value (S fuel) (String "{" (String quote t))
  = Some (json.JObject kvs, rest).
Proof. intros H. cbn [json.value json.skipSpace]. simpl. by rewrite H. Qed.

Lemma members_last fuel t key t2 v t4 :
  json.stringLit t = Some (key, String ":" t2) →
  json.value fuel t2 = Some (v, String "}" t4) →
  json.members (S fuel) (String quote t) = Some ([(key, v)], t4).
Proof. intros H1 H2. simpl. rewrite H1. simpl. by rewrite H2. Qed.

Lemma members_more fuel t key t2 v t4 kvs t5 :
  json.stringLit t = Some (key, String ":" t2) →
  json.value fuel t2 = Some (v, String "," t4) →
  json.members fuel t4 = Some (kvs, t5) →
  json.members (S fuel) (String quote t) = Some ((key, v) :: kvs, t5).
Proof.
  intros H1 H2 H3. simpl. rewrite H1. simpl. rewrite H2. simpl.
  by rewrite H3.
Qed.

Lemma value_encodeString fuel s rest :
  utf8.ValidString s = true →
  json.value (S fuel) (json.encodeString s +:+ rest)
  = Some (json.JString s, rest).
Proof.
  intros Hvalid. unfold json.encodeString.
  rewrite append_cons, append_assoc, append_cons, append_nil_l.
  apply value_string. by apply stringLit_encode.
Qed.

Lemma members_encodeFields (src : T) f fs fuel rest :
  Forall (encodable src) (f :: fs) →
  (length fs + 2 ≤ fuel)%nat →
  json.members fuel
    (String quote (json.name f) +:+ String quote ":" +:+
     json.encodeString (json.get f src) +:+
     json.encodeFields fs src "," +:+ "}" +:+ rest)
  = Some (written src (f :: fs), rest).
Proof.
  revert f fuel. induction fs as [|f' fs IH]; intros f fuel Henc Hfuel.
  - apply Forall_cons in Henc as [[Hname Hval] _].
    destruct fuel as [|[|fuel]]; [simpl in Hfuel; lia.. |].
    rewrite append_cons.
    eapply members_last.
    + rewrite append_cons. by apply stringLit_plain.
    + by apply value_encodeString.
  - apply Forall_cons in Henc as [[Hname Hval] Henc].
    destruct fuel as [|[|fuel]]; [simpl in Hfuel; lia.. |].
    rewrite append_cons.
    eapply members_more.
    + rewrite append_cons. by apply stringLit_plain.
    + cbn [json.encodeFields]. rewrite append_cons.
      by apply value_encodeString.
    + rewrite !append_assoc. apply IH; [done | simpl in Hfuel |- *; lia].
Qed.

Lemma length_encodeFields (src : T) (fs : list (json.Field T)) next :
  (length fs ≤ String.length (json.encodeFields fs src next))%nat.
Proof.
  revert next. induction fs as [|f fs IH]; intros next; [simpl; lia |].
  cbn [json.encodeFields]. simpl. rewrite !length_append.
  specialize (IH ","%char). lia.
Qed.

Lemma object_written all (src : T) fs v saved :
  Forall (λ f, json.findField all (json.name f) = Some f) fs →
  json.object all (written src fs) v saved
  = (foldl (λ acc f, json.set f acc (json.get f src)) v fs, saved).
Proof.
  intros Hfind. revert v.
  induction Hfind as [|f fs Hf _ IH]; intros v; [done |].
  simpl. by rewrite Hf, IH.
Qed.

Context `{!json.Struct T}.

Lemma Marshal_cons (src : T) f fs :
  json.fields T = f :: fs →
  json.Marshal src
  = String "{"
      (String quote (json.name f) +:+ String quote ":" +:+
       json.encodeString (json.get f src) +:+
       json.encodeFields fs src "," +:+ "}" +:+ EmptyString).
Proof.
  intros Hfs. unfold json.Marshal. rewrite Hfs. cbn [json.encodeFields].
  by repeat rewrite ?append_assoc, ?append_cons, ?append_nil_l.
Qed.

Lemma parse_value data v :
  json.value (2 * String.length data + 2) data = Some (v, EmptyString) →
  json.parse data = Some v.
Proof. intros Hv. unfold json.parse. by rewrite Hv. Qed.

(** The document that [Marshal] writes is an object with the fields as
    its members. *)
Lemma parse_Marshal (src : T) :
  json.fields T ≠ [] →
  Forall (encodable src) (json.fields T) →
  json.parse (json.Marshal src)
  = Some (json.JObject (written src (json.fields T))).
Proof.
  intros Hne Henc. apply parse_value.
  destruct (json.fields T) as [|f fs] eqn:Hfs; [done |].
  rewrite (Marshal_cons src f fs Hfs).
  set (body := String quote (json.name f) +:+ _).
  assert (length fs ≤ String.length body)%nat as Hlen.
  { subst body. rewrite append_cons. simpl. rewrite !length_append.
    pose proof (length_encodeFields src fs ","%char). lia. }
  replace (2 * String.length (String "{" body) + 2)%nat
    with (S (S (2 * String.length body + 2)))%nat by (simpl; lia).
  subst body. rewrite append_cons. apply value_object.
  rewrite <- append_cons. apply members_encodeFields; [done | lia].
Qed.

(** Decoding what [Marshal] writes assigns every field, in the order of
    the fields, and reports no error. *)
Lemma Unmarshal_Marshal (src zero : T) :
  json.fields T ≠ [] →
  Forall (encodable src) (json.fields T) →
  Forall (λ f, json.findField (json.fields T) (json.name f) = Some f)
    (json.fields T) →
  json.Unmarshal (json.Marshal src) zero
  = (foldl (λ acc f, json.set f acc (json.get f src)) zero (json.fields T),
     None).
Proof.
  intros Hne Henc Hfind. unfold json.Unmarshal.
  rewrite parse_Marshal by done. by apply object_written.
Qed.

End StructCodec.

Lemma Unmarshal_Marshal_Patient patient :
  utf8.ValidString (Name patient) = true →
  utf8.ValidString (PreExistingConditions patient) = true →
  utf8.ValidString (DiagnosisID patient) = true →
  utf8.ValidString (StatusID patient) = true →
  utf8.ValidString (KeyID patient) = true →
  json.Unmarshal (json.Marshal patient) newPatient = (patient, None).
Proof.
  intros H1 H2 H3 H4 H5. rewrite Unmarshal_Marshal.
  - by destruct patient.
  - done.
  - repeat constructor; done.
  - repeat constructor.
Qed.

(** On a document with a syntax error nothing is assigned. *)
Lemma Unmarshal_invalid {T} `{!json.Struct T} data (v : T) :
  json.Valid data = false →
  json.Unmarshal data v = (v, Some json.SyntaxError).
Proof.
  unfold json.Valid, json.Unmarshal. by destruct (json.parse data).
Qed.

(** ** Splitting at commas *)

Lemma Split_not_nil s sep : strings.Split s sep ≠ [].
Proof.
  destruct s as [|c s]; simpl; [done |].
  destruct (Ascii.eqb c sep); [done |]. by destruct (strings.Split s sep).
Qed.

(** The pieces of [Split], joined by the separator, are the string. *)
Lemma Split_concat s : String.concat "," (strings.Split s ",") = s.
Proof.
  induction s as [|c s IH]; [done |]. simpl.
  pose proof (Split_not_nil s ","%char) as Hne.
  destruct (Ascii.eqb_spec c ","%char) as [-> | Hc].
  - destruct (strings.Split s ",") as [|p ps]; [done |].
    simpl in *. by rewrite IH.
  - destruct (strings.Split s ",") as [|p ps]; [done |].
    destruct ps as [|q ps]; simpl in *; by rewrite <- IH.
Qed.

(** No piece of [Split] has a separator in it. *)
Lemma Split_noComma s : Forall (λ p, noComma p = true) (strings.Split s ",").
Proof.
  induction s as [|c s IH]; simpl; [by repeat constructor |].
  destruct (Ascii.eqb c ",") eqn:Hc; [by constructor |].
  pose proof (Split_not_nil s ","%char) as Hne.
  destruct (strings.Split s ",") as [|p ps]; [done |].
  apply Forall_cons in IH as [Hp Hps]. constructor; [| done].
  unfold noComma in *. simpl. by rewrite Hc, Hp.
Qed.

Lemma Split_piece p rest :
  noComma p = true →
  strings.Split (p +:+ String "," rest) "," = p :: strings.Split rest ",".
Proof.
  intros Hp. induction p as [|c p IH]; [done |].
  unfold noComma in Hp. simpl in Hp. apply andb_true_iff in Hp as [Hc Hp].
  apply negb_true_iff in Hc. rewrite append_cons. simpl. rewrite Hc.
  by rewrite IH.
Qed.

Lemma Split_one p : noComma p = true → strings.Split p "," = [p].
Proof.
  intros Hp. induction p as [|c p IH]; [done |].
  unfold noComma in Hp. simpl in Hp. apply andb_true_iff in Hp as [Hc Hp].
  apply negb_true_iff in Hc. simpl. rewrite Hc. by rewrite IH.
Qed.

(** A list of ids without commas, which is not empty, is what [Split]
    makes of the ids joined by commas. *)
Lemma Split_of_concat (ids : list string) :
  ids ≠ [] → Forall (λ p, noComma p = true) ids →
  strings.Split (String.concat "," ids) "," = ids.
Proof.
  intros Hne Hall. induction Hall as [|p ids Hp Hall IH]; [done |].
  destruct ids as [|q ids].
  - by apply Split_one.
  - change (String.concat "," (p :: q :: ids))
      with (p +:+ String "," (String.concat "," (q :: ids))).
    rewrite Split_piece by done. f_equal. by apply IH.
Qed.

(** ** The first digit run *)


Lemma inClass_digits c : regexp.inClass digitsRe c = isDecimalDigit c.
Proof. reflexivity. Qed.

Lemma run_split s :
  ∃ post, s = regexp.run digitsRe s +:+ post
    ∧ allBytes isDecimalDigit (regexp.run digitsRe s) = true
    ∧ startsWith isDecimalDigit post = false.
Proof.
  induction s as [|c s (post & Hs & Hall & Hpost)]; simpl.
  - by exists EmptyString.
  - rewrite inClass_digits. destruct (isDecimalDigit c) eqn:Hc.
    + exists post. rewrite append_cons, <- Hs. simpl. by rewrite Hc, Hall.
    + exists (String c s). simpl. by rewrite Hc.
Qed.

Lemma run_maximal digits post :
  allBytes isDecimalDigit digits = true →
  startsWith isDecimalDigit post = false →
  regexp.run digitsRe (digits +:+ post) = digits.
Proof.
  intros Hall Hpost. induction digits as [|c digits IH].
  - rewrite append_nil_l. destruct post as [|c post]; [done |].
    simpl in *. by rewrite inClass_digits, Hpost.
  - simpl in Hall. apply andb_true_iff in Hall as [Hc Hall].
    rewrite append_cons. simpl. rewrite inClass_digits, Hc. by rewrite IH.
Qed.

(** The match of [[0-9]+] that [Find] returns is the first digit run. *)
Lemma Find_firstDigitRun id :
  firstDigitRun id (string_of_bytes (regexp.Find digitsRe id)).
Proof.
  induction id as [|c id (pre & post & Hid & Hpre & Hdigits & Hpost & Hnil)];
    simpl.
  - by exists EmptyString, EmptyString.
  - rewrite inClass_digits. destruct (isDecimalDigit c) eqn:Hc; simpl.
    + destruct (run_split id) as (post' & Hs & Hall & Hpost').
      exists EmptyString, post'. rewrite append_nil_l, append_cons, <- Hs.
      simpl. rewrite Hc, Hall. by split_and!.
    + exists (String c pre), post. rewrite append_cons, <- Hid. simpl.
      rewrite Hc. by split_and!.
Qed.

(** The first digit run of an id is the match that [Find] returns. *)
Lemma firstDigitRun_Find id digits :
  firstDigitRun id digits →
  digits = string_of_bytes (regexp.Find digitsRe id).
Proof.
  intros (pre & post & -> & Hpre & Hdigits & Hpost & Hnil).
  induction pre as [|c pre IH].
  - rewrite append_nil_l. destruct digits as [|c digits].
    + by rewrite Hnil.
    + simpl in Hdigits. apply andb_true_iff in Hdigits as [Hc Hdigits].
      rewrite append_cons. simpl. rewrite inClass_digits, Hc. simpl.
      by rewrite run_maximal.
  - simpl in Hpre. apply andb_true_iff in Hpre as [Hc Hpre].
    rewrite append_cons. simpl. rewrite inClass_digits.
    apply negb_true_iff in Hc. rewrite Hc. by apply IH.
Qed.

Lemma resultID_firstDigitRun proposalID digits :
  firstDigitRun proposalID digits → resultID proposalID = "RESULT" +:+ digits.
Proof. intros H. unfold resultID. by rewrite (firstDigitRun_Find _ _ H). Qed.

(** ** The contract *)

Section Contract.
Context {crypto : phe.Lib} {ledger : shim.Failures}.

(** *** The stub *)

Lemma PutState_cases w key value :
  shim.PutState w key value = (w, shim.putStateError key value)
    ∧ is_Some (shim.putStateError key value)
  ∨ shim.PutState w key value = (<[key := value]> w, None)
    ∧ shim.putStateError key value = None.
Proof.
  unfold shim.PutState.
  destruct (shim.putStateError key value) as [e|]; [left | right]; eauto.
Qed.

(** *** Reading an entity *)

Lemma FindPatient_stored w id patientAsBytes :
  shim.getStateError id = None → w !! id = Some patientAsBytes →
  FindPatient w id = Found (json.Unmarshal patientAsBytes newPatient).1.
Proof.
  intros He Hw. unfold FindPatient, shim.GetState. rewrite He, Hw.
  by destruct (json.Unmarshal patientAsBytes newPatient).
Qed.

Lemma FindProposal_stored w id proposalAsBytes :
  shim.getStateError id = None → w !! id = Some proposalAsBytes →
  FindProposal w id = Found (json.Unmarshal proposalAsBytes newProposal).1.
Proof.
  intros He Hw. unfold FindProposal, shim.GetState. rewrite He, Hw.
  by destruct (json.Unmarshal proposalAsBytes newProposal).
Qed.

Lemma FindResult_stored w id resultAsBytes :
  shim.getStateError id = None → w !! id = Some resultAsBytes →
  FindResult w id = Found (json.Unmarshal resultAsBytes newResult).1.
Proof.
  intros He Hw. unfold FindResult, shim.GetState. rewrite He, Hw.
  by destruct (json.Unmarshal resultAsBytes newResult).
Qed.

Lemma FindPatient_absent w id :
  w !! id = None → shim.getStateError id = None →
  FindPatient w id = Failed (doesNotExist id).
Proof.
  intros Hw He. unfold FindPatient, shim.GetState. by rewrite He, Hw.
Qed.

Lemma FindPatient_absent_fails w id :
  w !! id = None → ∃ err, FindPatient w id = Failed err.
Proof.
  intros Hw. unfold FindPatient, shim.GetState.
  destruct (shim.getStateError id); [eauto |]. rewrite Hw. eauto.
Qed.

(** The two ways in which [FindPatient] fails. *)
Lemma FindPatient_failed_inv w id err :
  FindPatient w id = Failed err →
  (∃ e, shim.getStateError id = Some e ∧ err = readFailed e)
  ∨ (shim.getStateError id = None ∧ w !! id = None ∧ err = doesNotExist id).
Proof.
  unfold FindPatient, shim.GetState.
  destruct (shim.getStateError id) as [e|].
  - intros [= <-]. left. eauto.
  - destruct (w !! id) as [bs|].
    + destruct (json.Unmarshal bs newPatient). discriminate.
    + intros [= <-]. right. eauto.
Qed.

Lemma FindProposal_failed_inv w id err :
  FindProposal w id = Failed err →
  (∃ e, shim.getStateError id = Some e ∧ err = readFailed e)
  ∨ (shim.getStateError id = None ∧ w !! id = None ∧ err = doesNotExist id).
Proof.
  unfold FindProposal, shim.GetState.
  destruct (shim.getStateError id) as [e|].
  - intros [= <-]. left. eauto.
  - destruct (w !! id) as [bs|].
    + destruct (json.Unmarshal bs newProposal). discriminate.
    + intros [= <-]. right. eauto.
Qed.

(** *** The loop of [CreateProposal] *)

(** The loop stops at the first patient that is not found. *)
Lemma patientsValues_first_failure w pre pid post ms err :
  Forall (λ p, ∃ patient, FindPatient w p = Found patient) pre →
  FindPatient w pid = Failed err →
  patientsValues w (pre ++ pid :: post) ms = Failed err.
Proof.
  intros Hpre Hpid. revert ms.
  induction Hpre as [|p pre [patient Hp] _ IH]; intros ms; simpl.
  - by rewrite Hpid.
  - rewrite Hp. apply IH.
Qed.

(** A list with an id that is not found splits at the first such id. *)
Lemma first_failure_split w (pids : list string) :
  (∃ pid, pid ∈ pids ∧ ∃ err, FindPatient w pid = Failed err) →
  ∃ pre pid post err,
    pids = pre ++ pid :: post
    ∧ Forall (λ p, ∃ patient, FindPatient w p = Found patient) pre
    ∧ FindPatient w pid = Failed err.
Proof.
  induction pids as [|p pids IH]; intros (pid & Hin & err & Hpid).
  - by apply elem_of_nil in Hin.
  - destruct (FindPatient w p) as [patient|e] eqn:Hp.
    + apply elem_of_cons in Hin as [-> | Hin]; [congruence |].
      destruct IH as (pre & q & post & e & -> & Hpre & Hq); [eauto |].
      exists (p :: pre), q, post, e. split_and!; [done | | done].
      constructor; eauto.
    + exists [], p, pids, e. split_and!; [done | constructor | done].
Qed.

(** When every patient is found, the loop appends their values in the
    order of the ids. *)
Lemma patientsValues_found w pids patients ms :
  Forall2 (λ pid patient, FindPatient w pid = Found patient) pids patients →
  patientsValues w pids ms = Found (ms ++ map PreExistingConditions patients).
Proof.
  intros H. revert ms.
  induction H as [|pid patient pids patients Hp _ IH]; intros ms; simpl.
  - by rewrite app_nil_r.
  - rewrite Hp, IH. by rewrite <- app_assoc.
Qed.

Lemma patientsValues_failed_inv w pids ms err :
  patientsValues w pids ms = Failed err →
  ∃ pid, pid ∈ pids ∧ FindPatient w pid = Failed err.
Proof.
  revert ms. induction pids as [|p pids IH]; intros ms; simpl; [done |].
  destruct (FindPatient w p) as [patient|e] eqn:Hp.
  - intros (pid & Hin & Hpid)%IH. exists pid. split; [by right | done].
  - intros [= <-]. exists p. split; [by left | done].
Qed.

(** *** What a call writes *)

Lemma CreateProposal_found
  w id requesterID requestedID patientsIDs keyID modulo patients :
  Forall2 (λ pid patient, FindPatient w pid = Found patient)
    (strings.Split patientsIDs ",") patients →
  CreateProposal w id requesterID requestedID patientsIDs keyID modulo
  = shim.PutState w id
      (json.Marshal
         {| RequesterID := requesterID; RequestedID := requestedID;
            PatientsIDs := patientsIDs; ProposalKeyID := keyID;
            ProposalValue :=
              phe.MeanFromString modulo
                (map PreExistingConditions patients) |}).
Proof.
  intros Hfound. unfold CreateProposal. simpl.
  by rewrite (patientsValues_found w _ patients []).
Qed.

Lemma CreateResult_found
  w proposalID firstToken secondToken keyID modulo proposal :
  FindProposal w proposalID = Found proposal →
  CreateResult w proposalID firstToken secondToken keyID modulo
  = shim.PutState w (resultID proposalID)
      (json.Marshal
         {| ProposalID := proposalID; ResultKeyID := keyID;
            ResultValue :=
              phe.KeyUpdateFromString modulo firstToken secondToken
                (ProposalValue proposal) |}).
Proof. intros Hfind. unfold CreateResult. by rewrite Hfind. Qed.

(** An invocation leaves the world state as it is or writes one value
    under its key. *)
Lemma invoke_cases inv w :
  (invoke inv w).1 = w
  ∨ ∃ value, invoke inv w = (<[writtenKey inv := value]> w, None).
Proof.
  destruct inv; simpl.
  - unfold CreatePatient.
    match goal with |- context [shim.PutState w id ?v] =>
      destruct (PutState_cases w id v) as [[-> _] | [-> _]]; eauto end.
  - unfold UpdatePatient. destruct (FindPatient w id); [| by left].
    match goal with |- context [shim.PutState w id ?v] =>
      destruct (PutState_cases w id v) as [[-> _] | [-> _]]; eauto end.
  - unfold CreateProposal.
    destruct (patientsValues _ _ _); [| by left].
    match goal with |- context [shim.PutState w id ?v] =>
      destruct (PutState_cases w id v) as [[-> _] | [-> _]]; eauto end.
  - unfold CreateResult. destruct (FindProposal w proposalID); [| by left].
    match goal with |- context [shim.PutState w ?k ?v] =>
      destruct (PutState_cases w k v) as [[-> _] | [-> _]]; eauto end.
Qed.

Lemma invoke_frame inv w k :
  k ≠ writtenKey inv → (invoke inv w).1 !! k = w !! k.
Proof.
  intros Hne. destruct (invoke_cases inv w) as [-> | [value ->]]; [done |].
  simpl. by rewrite lookup_insert_ne.
Qed.

Lemma invoke_failed inv w err :
  (invoke inv w).2 = Some err → (invoke inv w).1 = w.
Proof.
  destruct (invoke_cases inv w) as [Hw | [value ->]]; [done | discriminate].
Qed.

(** *** The properties that the specification states *)

(** C1.  When some entry of the list of patient ids has no record in the
    world state, [CreateProposal] looks the entries up with [FindPatient]
    in the order of the list: the entries before the first one that is
    not found are found, and the call returns the error of that first
    one as it is, which is [id does not exist] when the read of a missing
    id does not fail.  The call writes nothing: the world state is the
    one before the call, so a proposal id without an entry before the
    call has none after it. *)
Theorem CreateProposal_missing_patient
  w id requesterID requestedID patientsIDs keyID modulo :
  (∃ pid, pid ∈ strings.Split patientsIDs "," ∧ w !! pid = None) →
  ∃ pre pid post err,
    strings.Split patientsIDs "," = pre ++ pid :: post
    ∧ Forall (λ p, ∃ patient, FindPatient w p = Found patient) pre
    ∧ FindPatient w pid = Failed err
    ∧ (shim.getStateError pid = None → err = doesNotExist pid)
    ∧ CreateProposal w id requesterID requestedID patientsIDs keyID modulo
      = (w, Some err)
    ∧ (w !! id = None →
       (CreateProposal w id requesterID requestedID patientsIDs keyID
          modulo).1 !! id = None).
Proof.
  intros (missing & Hin & Hw).
  destruct (first_failure_split w (strings.Split patientsIDs ","))
    as (pre & pid & post & err & Hsplit & Hpre & Hpid).
  { exists missing. split; [done |]. by apply FindPatient_absent_fails. }
  assert (Hcall : CreateProposal w id requesterID requestedID patientsIDs
                    keyID modulo = (w, Some err)).
  { unfold CreateProposal. simpl. rewrite Hsplit.
    by rewrite (patientsValues_first_failure w pre pid post [] err). }
  exists pre, pid, post, err. split_and!; try done.
  - intros He. apply FindPatient_failed_inv in Hpid
      as [(e & He' & _) | (_ & _ & ->)]; [congruence | done].
  - by rewrite Hcall.
Qed.

(** C2.  For a proposal id under which a proposal is found and a write
    that does not fail, [CreateResult] stores the result under
    ["RESULT"] followed by the first maximal run of decimal digits of the
    proposal id, which is empty when the id has no digit.  The key is
    [resultID proposalID]: a function of the proposal id alone, whatever
    the other arguments and the world state are. *)
Theorem CreateResult_stores_at_derived_id
  w proposalID firstToken secondToken keyID modulo proposal :
  let result :=
    {| ProposalID := proposalID; ResultKeyID := keyID;
       ResultValue :=
         phe.KeyUpdateFromString modulo firstToken secondToken
           (ProposalValue proposal) |} in
  FindProposal w proposalID = Found proposal →
  shim.putStateError (resultID proposalID) (json.Marshal result) = None →
  CreateResult w proposalID firstToken secondToken keyID modulo
  = (<[resultID proposalID := json.Marshal result]> w, None)
  ∧ ∃ digits,
      firstDigitRun proposalID digits
      ∧ resultID proposalID = "RESULT" +:+ digits.
Proof.
  intros result Hfind Hput. split.
  - rewrite (CreateResult_found _ _ _ _ _ _ proposal) by done.
    fold result. unfold shim.PutState. by rewrite Hput.
  - eexists. split; [apply Find_firstDigitRun | done].
Qed.

(** C3, as the code has it.  When the read of an id does not fail and
    bytes are stored under it, [FindPatient], [FindProposal] and
    [FindResult] succeed: each returns what [json.Unmarshal] leaves in a
    new struct of its type and drops the error of [json.Unmarshal].  For
    bytes that are not a JSON document that is the zero value. *)
Theorem Find_returns_what_Unmarshal_leaves w id stored :
  shim.getStateError id = None → w !! id = Some stored →
  FindPatient w id = Found (json.Unmarshal stored newPatient).1
  ∧ FindProposal w id = Found (json.Unmarshal stored newProposal).1
  ∧ FindResult w id = Found (json.Unmarshal stored newResult).1
  ∧ (json.Valid stored = false →
     FindPatient w id = Found newPatient
     ∧ FindProposal w id = Found newProposal
     ∧ FindResult w id = Found newResult).
Proof.
  intros He Hw.
  rewrite (FindPatient_stored w id stored), (FindProposal_stored w id stored),
    (FindResult_stored w id stored) by done.
  split_and!; try done.
  intros Hinvalid. by rewrite !Unmarshal_invalid.
Qed.

(** C4.  When every entry of the list of patient ids is found and the
    write does not fail, the loop of [CreateProposal] collects the
    values of the patients in the order of the list, and the call stores
    under the proposal id the proposal made of the arguments (the
    patient ids as they were passed) and of the result of
    [phe.MeanFromString] on the modulus and that list of values. *)
Theorem CreateProposal_stores_mean
  w id requesterID requestedID patientsIDs keyID modulo patients :
  let proposal :=
    {| RequesterID := requesterID; RequestedID := requestedID;
       PatientsIDs := patientsIDs; ProposalKeyID := keyID;
       ProposalValue :=
         phe.MeanFromString modulo (map PreExistingConditions patients) |} in
  Forall2 (λ pid patient, FindPatient w pid = Found patient)
    (strings.Split patientsIDs ",") patients →
  shim.putStateError id (json.Marshal proposal) = None →
  patientsValues w (strings.Split patientsIDs ",") []
    = Found (map PreExistingConditions patients)
  ∧ CreateProposal w id requesterID requestedID patientsIDs keyID modulo
    = (<[id := json.Marshal proposal]> w, None).
Proof.
  intros proposal Hfound Hput. split.
  - by rewrite (patientsValues_found w _ patients []).
  - rewrite (CreateProposal_found _ _ _ _ _ _ _ patients) by done.
    fold proposal. unfold shim.PutState. by rewrite Hput.
Qed.

(** C5, as the code has it.  A stored proposal stays as it is under every
    invocation that writes under another key and under every invocation
    that fails.  [CreateProposal] with the id of the stored proposal,
    when every patient is found and the write does not fail, computes the
    mean again and puts the new proposal in the place of the stored
    one. *)
Theorem stored_Proposal_changes_by_write_at_its_key w id stored :
  w !! id = Some stored →
  (∀ inv, writtenKey inv ≠ id → (invoke inv w).1 !! id = Some stored)
  ∧ (∀ inv err, (invoke inv w).2 = Some err →
     (invoke inv w).1 !! id = Some stored)
  ∧ (∀ requesterID requestedID patientsIDs keyID modulo patients,
     let proposal :=
       {| RequesterID := requesterID; RequestedID := requestedID;
          PatientsIDs := patientsIDs; ProposalKeyID := keyID;
          ProposalValue :=
            phe.MeanFromString modulo
              (map PreExistingConditions patients) |} in
     Forall2 (λ pid patient, FindPatient w pid = Found patient)
       (strings.Split patientsIDs ",") patients →
     shim.putStateError id (json.Marshal proposal) = None →
     (CreateProposal w id requesterID requestedID patientsIDs keyID
        modulo).1 !! id = Some (json.Marshal proposal)).
Proof.
  intros Hw. split_and!.
  - intros inv Hne. by rewrite invoke_frame.
  - intros inv err Herr. by rewrite (invoke_failed inv w err).
  - intros requesterID requestedID patientsIDs keyID modulo patients
      proposal Hfound Hput.
    rewrite (CreateProposal_found _ _ _ _ _ _ _ patients) by done.
    fold proposal. unfold shim.PutState. rewrite Hput. simpl.
    by rewrite lookup_insert_eq.
Qed.

(** C6, as the code has it.  The functions of [phe] return a string and
    no error, and the contract has no error of its own for them: an error
    of [CreateProposal] is the error of a read of a patient id, [id does
    not exist] for a patient id, or the error of the write; an error of
    [CreateResult] is the error of the read of the proposal id, [id does
    not exist] for it, or the error of the write. *)
Theorem errors_come_from_the_ledger w :
  (∀ id requesterID requestedID patientsIDs keyID modulo err,
     (CreateProposal w id requesterID requestedID patientsIDs keyID
        modulo).2 = Some err →
     (∃ pid e, pid ∈ strings.Split patientsIDs ","
               ∧ shim.getStateError pid = Some e ∧ err = readFailed e)
     ∨ (∃ pid, pid ∈ strings.Split patientsIDs ","
               ∧ w !! pid = None ∧ err = doesNotExist pid)
     ∨ (∃ value, shim.putStateError id value = Some err))
  ∧ (∀ proposalID firstToken secondToken keyID modulo err,
     (CreateResult w proposalID firstToken secondToken keyID modulo).2
       = Some err →
     (∃ e, shim.getStateError proposalID = Some e ∧ err = readFailed e)
     ∨ (w !! proposalID = None ∧ err = doesNotExist proposalID)
     ∨ (∃ value,
          shim.putStateError (resultID proposalID) value = Some err)).
Proof.
  split.
  - intros id requesterID requestedID patientsIDs keyID modulo err.
    unfold CreateProposal. simpl.
    destruct (patientsValues _ _ _) as [ms | e] eqn:Hloop; simpl.
    + unfold shim.PutState.
      destruct (shim.putStateError id _) as [e|] eqn:Hput; [| done].
      intros [= <-]. right. right. eauto.
    + intros [= <-].
      apply patientsValues_failed_inv in Hloop as (pid & Hin & Hpid).
      apply FindPatient_failed_inv in Hpid
        as [(e' & He & ->) | (_ & Hw & ->)]; [left | right; left]; eauto.
  - intros proposalID firstToken secondToken keyID modulo err.
    unfold CreateResult.
    destruct (FindProposal w proposalID) as [proposal | e] eqn:Hfind; simpl.
    + unfold shim.PutState.
      destruct (shim.putStateError _ _) as [e|] eqn:Hput; [| done].
      intros [= <-]. right. right. eauto.
    + intros [= <-].
      apply FindProposal_failed_inv in Hfind
        as [(e' & He & ->) | (_ & Hw & ->)]; [left | right; left]; eauto.
Qed.

(** C7.  For two proposal ids with the same first digit run, both stored
    and read without failure, and writes under the derived id that do not
    fail: [CreateResult] on the first and then on the second succeed,
    both write under ["RESULT"] followed by that run, and after the
    second call that key holds the result of the second proposal in the
    place of the result of the first. *)
Theorem CreateResult_same_digits_last_write_wins
  w digits first second stored1 stored2
  firstToken1 secondToken1 keyID1 modulo1
  firstToken2 secondToken2 keyID2 modulo2 :
  firstDigitRun first digits → firstDigitRun second digits →
  w !! first = Some stored1 → w !! second = Some stored2 →
  shim.getStateError first = None → shim.getStateError second = None →
  (∀ value, shim.putStateError ("RESULT" +:+ digits) value = None) →
  ∃ w1 w2 proposal1 proposal2,
    CreateResult w first firstToken1 secondToken1 keyID1 modulo1
      = (w1, None)
    ∧ CreateResult w1 second firstToken2 secondToken2 keyID2 modulo2
      = (w2, None)
    ∧ resultID first = "RESULT" +:+ digits
    ∧ resultID second = "RESULT" +:+ digits
    ∧ FindProposal w first = Found proposal1
    ∧ FindProposal w1 second = Found proposal2
    ∧ w1 !! ("RESULT" +:+ digits)
      = Some (json.Marshal
                {| ProposalID := first; ResultKeyID := keyID1;
                   ResultValue :=
                     phe.KeyUpdateFromString modulo1 firstToken1
                       secondToken1 (ProposalValue proposal1) |})
    ∧ w2 !! ("RESULT" +:+ digits)
      = Some (json.Marshal
                {| ProposalID := second; ResultKeyID := keyID2;
                   ResultValue :=
                     phe.KeyUpdateFromString modulo2 firstToken2
                       secondToken2 (ProposalValue proposal2) |}).
Proof.
  intros Hd1 Hd2 Hw1 Hw2 He1 He2 Hput.
  apply resultID_firstDigitRun in Hd1, Hd2.
  pose proof (FindProposal_stored w first stored1 He1 Hw1) as Hf1.
  set (proposal1 := (json.Unmarshal stored1 newProposal).1) in Hf1.
  set (result1 :=
    json.Marshal
      {| ProposalID := first; ResultKeyID := keyID1;
         ResultValue :=
           phe.KeyUpdateFromString modulo1 firstToken1 secondToken1
             (ProposalValue proposal1) |}).
  set (w1 := <["RESULT" +:+ digits := result1]> w).
  assert (Hcall1 : CreateResult w first firstToken1 secondToken1 keyID1
                     modulo1 = (w1, None)).
  { rewrite (CreateResult_found _ _ _ _ _ _ proposal1) by done.
    unfold shim.PutState. by rewrite Hd1, Hput. }
  assert (∃ stored2', w1 !! second = Some stored2') as [stored2' Hw2'].
  { subst w1. destruct (decide ("RESULT" +:+ digits = second)) as [<- | Hne].
    - rewrite lookup_insert_eq. eauto.
    - rewrite lookup_insert_ne by done. eauto. }
  pose proof (FindProposal_stored w1 second stored2' He2 Hw2') as Hf2.
  set (proposal2 := (json.Unmarshal stored2' newProposal).1) in Hf2.
  exists w1, (<["RESULT" +:+ digits :=
              json.Marshal
                {| ProposalID := second; ResultKeyID := keyID2;
                   ResultValue :=
                     phe.KeyUpdateFromString modulo2 firstToken2
                       secondToken2 (ProposalValue proposal2) |}]> w1),
    proposal1, proposal2.
  split_and!; try done.
  - rewrite (CreateResult_found _ _ _ _ _ _ proposal2) by done.
    unfold shim.PutState. by rewrite Hd2, Hput.
  - subst w1. by rewrite lookup_insert_eq.
  - by rewrite lookup_insert_eq.
Qed.

(** C8.  For an id that the ledger writes and reads without failure and
    field values that are valid UTF-8, [CreatePatient] succeeds, and
    [FindPatient] on that id in the world state it leaves returns the
    patient whose five fields are the values that were passed. *)
Theorem CreatePatient_FindPatient
  w id name preExistingConditions diagnosisID statusID keyID :
  let patient :=
    {| Name := name; PreExistingConditions := preExistingConditions;
       DiagnosisID := diagnosisID; StatusID := statusID;
       KeyID := keyID |} in
  shim.putStateError id (json.Marshal patient) = None →
  shim.getStateError id = None →
  utf8.ValidString name = true →
  utf8.ValidString preExistingConditions = true →
  utf8.ValidString diagnosisID = true →
  utf8.ValidString statusID = true →
  utf8.ValidString keyID = true →
  ∃ w',
    CreatePatient w id name preExistingConditions diagnosisID statusID keyID
      = (w', None)
    ∧ FindPatient w' id = Found patient.
Proof.
  intros patient Hput Hget H1 H2 H3 H4 H5.
  exists (<[id := json.Marshal patient]> w). split.
  - unfold CreatePatient. fold patient. unfold shim.PutState.
    by rewrite Hput.
  - rewrite (FindPatient_stored _ id (json.Marshal patient));
      [| done | by rewrite lookup_insert_eq].
    by rewrite Unmarshal_Marshal_Patient.
Qed.

(** C9.  For an id without a record in the world state, whose read does
    not fail, [UpdatePatient] fails with [id does not exist] and the
    world state after the call is the one before it. *)
Theorem UpdatePatient_absent
  w id name preExistingConditions diagnosisID statusID keyID :
  w !! id = None → shim.getStateError id = None →
  UpdatePatient w id name preExistingConditions diagnosisID statusID keyID
  = (w, Some (doesNotExist id)).
Proof.
  intros Hw He. unfold UpdatePatient. by rewrite FindPatient_absent.
Qed.

(** C10.  An invocation of [CreatePatient], [UpdatePatient],
    [CreateProposal] or [CreateResult] leaves the world state as it is
    or writes one value under its key, which is the id passed to the
    first three and the derived id for [CreateResult]; every other key
    reads after the call as it did before. *)
Theorem invoke_writes_one_key inv w :
  ((invoke inv w).1 = w
   ∨ ∃ value, (invoke inv w).1 = <[writtenKey inv := value]> w)
  ∧ ∀ k, k ≠ writtenKey inv → (invoke inv w).1 !! k = w !! k.
Proof.
  split.
  - destruct (invoke_cases inv w) as [Hw | [value Hw]]; [by left |].
    right. exists value. by rewrite Hw.
  - intros k. apply invoke_frame.
Qed.

End Contract.

(** ** The range query *)

(** Over an iterator whose calls of [Next] do not fail the loop appends
    one result for each entry, in the order of the iterator. *)
Lemma allPatientsLoop_found kvs results :
  allPatientsLoop (map Found kvs) results
  = Found (results ++ map queryResultOf kvs).
Proof.
  revert results. induction kvs as [|kv kvs IH]; intros results.
  - simpl. by rewrite app_nil_r.
  - change (map queryResultOf (kv :: kvs))
      with ([queryResultOf kv] ++ map queryResultOf kvs).
    rewrite app_assoc, <- IH. simpl. unfold queryResultOf.
    by destruct (json.Unmarshal (queryresult.Value kv) newPatient).
Qed.

(** The loop returns at the first call of [Next] that fails. *)
Lemma allPatientsLoop_failed pre err post results :
  allPatientsLoop (map Found pre ++ Failed err :: post) results = Failed err.
Proof.
  revert results. induction pre as [|kv pre IH]; intros results; simpl.
  - done.
  - destruct (json.Unmarshal (queryresult.Value kv) newPatient) as [p e].
    apply IH.
Qed.

(** An iterator is made of entries only, or of entries up to a first
    failure. *)
Lemma iterator_cases (it : iterators.StateQueryIterator) :
  (∃ kvs, it = map Found kvs)
  ∨ (∃ pre err post, it = map Found pre ++ Failed err :: post).
Proof.
  induction it as [|[kv | err] it IH].
  - left. by exists [].
  - destruct IH as [[kvs ->] | (pre & err & post & ->)].
    + left. by exists (kv :: kvs).
    + right. by exists (kv :: pre), err, post.
  - right. by exists [], err, it.
Qed.

Lemma map_Found_inj {A} (xs ys : list A) :
  map Found xs = map Found ys → xs = ys.
Proof.
  revert ys. induction xs as [|x xs IH]; intros [|y ys]; simpl; try done.
  intros [= <- H]. f_equal. by apply IH.
Qed.

Lemma entries_not_failure {A} (kvs pre : list A) err post :
  map Found kvs ≠ map Found pre ++ Failed err :: post.
Proof.
  revert pre. induction kvs as [|kv kvs IH]; intros [|kv' pre]; simpl;
    try done.
  intros [= _ H]. by apply (IH pre).
Qed.

Lemma first_failure_unique {A} (pre pre' : list A) err err' post post' :
  map Found pre ++ Failed err :: post
  = map Found pre' ++ Failed err' :: post' →
  err = err'.
Proof.
  revert pre'. induction pre as [|x pre IH]; intros [|y pre']; simpl;
    try done.
  - by intros [= <- _].
  - intros [= _ H]. by apply (IH pre').
Qed.

(** ** The range scan *)

Lemma ltb_leb_ne a b :
  String.ltb a b = true ↔ String.leb a b = true ∧ a ≠ b.
Proof.
  unfold String.ltb, String.leb.
  destruct (String.compare a b) eqn:Hc.
  - apply String.compare_eq_iff in Hc as ->. split; [done | by intros [_ []]].
  - split; [| done]. intros _. split; [done |]. intros ->.
    assert (String.compare b b = Eq) as Heq; [| congruence].
    clear Hc. induction b as [|c b IH]; simpl; [done |].
    rewrite IH. unfold Ascii.compare. by rewrite N.compare_refl.
  - split; [done | by intros [? _]].
Qed.

Lemma keyLe_transitive : Transitive keyLe.
Proof. intros a b c. unfold keyLe. apply transitivity. Qed.

Lemma keyLe_total : Total keyLe.
Proof. intros a b. unfold keyLe. apply String.le_total. Qed.

(** Keys in ascending order without a key twice are in strictly
    ascending order. *)
Lemma StronglySorted_strict (keys : list string) :
  NoDup keys → StronglySorted String.le keys → StronglySorted keyBefore keys.
Proof.
  intros Hnd Hs. induction Hs as [|k keys _ IH Hall]; [constructor |].
  apply NoDup_cons in Hnd as [Hk Hnd]. constructor; [by apply IH |].
  apply Forall_forall. intros k' Hin. apply ltb_leb_ne. split.
  - apply Is_true_true. by apply (proj1 (Forall_forall _ _) Hall).
  - intros ->. done.
Qed.

(** The scan delivers the entries of the world state in the range. *)
Lemma elem_of_rangeScan w startKey endKey kv :
  kv ∈ rangeScan w startKey endKey
  ↔ keyInRange startKey endKey (queryresult.Key kv) = true
    ∧ w !! queryresult.Key kv = Some (queryresult.Value kv).
Proof.
  unfold rangeScan. rewrite merge_sort_Permutation.
  rewrite list_elem_of_fmap. split.
  - intros ([k v] & -> & [Hr Hw%elem_of_map_to_list]%list_elem_of_filter).
    done.
  - intros [Hr Hw]. exists (queryresult.Key kv, queryresult.Value kv).
    split; [by destruct kv |].
    apply list_elem_of_filter. split; [done |]. by apply elem_of_map_to_list.
Qed.

Lemma rangeScan_sorted w startKey endKey :
  StronglySorted keyBefore
    (map queryresult.Key (rangeScan w startKey endKey)).
Proof.
  apply StronglySorted_strict.
  - unfold rangeScan. rewrite merge_sort_Permutation.
    rewrite map_map. simpl.
    apply (sublist_NoDup _ (map_to_list w).*1);
      [apply NoDup_fst_map_to_list |].
    apply fmap_sublist, sublist_filter.
  - pose proof keyLe_transitive. pose proof keyLe_total.
    apply (StronglySorted_fmap queryresult.Key keyLe String.le); [done |].
    apply Sorted_StronglySorted; [done |].
    apply (Sorted_merge_sort keyLe).
Qed.

(** ** Stored proposals and results *)

Lemma Unmarshal_Marshal_Proposal proposal :
  utf8.ValidString (RequesterID proposal) = true →
  utf8.ValidString (RequestedID proposal) = true →
  utf8.ValidString (PatientsIDs proposal) = true →
  utf8.ValidString (ProposalKeyID proposal) = true →
  utf8.ValidString (ProposalValue proposal) = true →
  json.Unmarshal (json.Marshal proposal) newProposal = (proposal, None).
Proof.
  intros H1 H2 H3 H4 H5. rewrite Unmarshal_Marshal.
  - by destruct proposal.
  - done.
  - repeat constructor; done.
  - repeat constructor.
Qed.

Lemma Unmarshal_Marshal_Result result :
  utf8.ValidString (ProposalID result) = true →
  utf8.ValidString (ResultKeyID result) = true →
  utf8.ValidString (ResultValue result) = true →
  json.Unmarshal (json.Marshal result) newResult = (result, None).
Proof.
  intros H1 H2 H3. rewrite Unmarshal_Marshal.
  - by destruct result.
  - done.
  - repeat constructor; done.
  - repeat constructor.
Qed.



Lemma resultID_inj_digits d1 d2 :
  "RESULT" +:+ d1 = "RESULT" +:+ d2 → d1 = d2.
Proof. rewrite !append_cons, !append_nil_l. by intros [= ->]. Qed.

(** The derived id of a derived id is that id. *)
Lemma resultID_resultID proposalID :
  resultID (resultID proposalID) = resultID proposalID.
Proof.
  destruct (Find_firstDigitRun proposalID)
    as (pre & post & _ & _ & Hdigits & _ & _).
  apply resultID_firstDigitRun. exists "RESULT", EmptyString.
  rewrite append_nil_r. by split_and!.
Qed.

(** ** More of the contract *)

Section Records.
Context {crypto : phe.Lib} {ledger : shim.Failures}
  {ranges : iterators.RangeQueries}.

(** When the loop of [CreateProposal] returns values, every id was
    found. *)
Lemma patientsValues_found_inv w pids ms ms' :
  patientsValues w pids ms = Found ms' →
  ∃ patients,
    Forall2 (λ pid patient, FindPatient w pid = Found patient) pids patients
    ∧ ms' = ms ++ map PreExistingConditions patients.
Proof.
  revert ms. induction pids as [|p pids IH]; intros ms; simpl.
  - intros [= <-]. exists []. split; [constructor | by rewrite app_nil_r].
  - destruct (FindPatient w p) as [patient | e] eqn:Hp; [| done].
    intros (patients & Hall & ->)%IH. exists (patient :: patients).
    split; [by constructor |]. by rewrite <- app_assoc.
Qed.

(** *** [AllPatients] *)

(** X1.  [AllPatients] returns results exactly when the range query
    returns an iterator none of whose calls of [Next] fails.  The results
    are then one for each entry of the iterator, in the order of the
    iterator: the key of the entry and what [json.Unmarshal] leaves of
    its value in a new patient. *)
Theorem AllPatients_lists_the_iterator w firstID lastID results :
  AllPatients w firstID lastID = Found results
  ↔ ∃ kvs,
      iterators.GetStateByRange w firstID lastID = Found (map Found kvs)
      ∧ results = map queryResultOf kvs.
Proof.
  unfold AllPatients.
  destruct (iterators.GetStateByRange w firstID lastID) as [it | e].
  - destruct (iterator_cases it) as [[kvs ->] | (pre & err & post & ->)].
    + rewrite allPatientsLoop_found. simpl. split.
      * intros [= <-]. eauto.
      * by intros (kvs' & [= ->%map_Found_inj] & ->).
    + rewrite allPatientsLoop_failed. split; [done |].
      intros (kvs & [= H] & _). symmetry in H.
      by apply entries_not_failure in H.
  - split; [done |]. by intros (kvs & [=] & _).
Qed.

(** X2.  [AllPatients] fails exactly when the range query fails or a call
    of [Next] fails, and its error is the error of the range query or of
    the first call of [Next] that fails, as it is.  The results collected
    before that call are not returned. *)
Theorem AllPatients_fails_at_the_first_failure w firstID lastID err :
  AllPatients w firstID lastID = Failed err
  ↔ iterators.GetStateByRange w firstID lastID = Failed err
    ∨ ∃ pre post,
        iterators.GetStateByRange w firstID lastID
        = Found (map Found pre ++ Failed err :: post).
Proof.
  unfold AllPatients.
  destruct (iterators.GetStateByRange w firstID lastID) as [it | e].
  - destruct (iterator_cases it) as [[kvs ->] | (pre & e & post & ->)].
    + rewrite allPatientsLoop_found. split; [done |].
      intros [[=] | (pre & post & [= H])].
      by apply entries_not_failure in H.
    + rewrite allPatientsLoop_failed. split.
      * intros [= <-]. right. eauto.
      * intros [[=] | (pre' & post' & [= H])].
        by rewrite (first_failure_unique _ _ _ _ _ _ H).
  - split.
    + intros [= <-]. by left.
    + by intros [[= <-] | (pre & post & [=])].
Qed.

(** X3.  When the iterator delivers entries of the world state and the
    reads of their keys do not fail, [AllPatients] and [FindPatient]
    agree: the results have the keys of the entries in their order, and
    the record of every result is the patient that [FindPatient] returns
    for its key. *)
Theorem AllPatients_agrees_with_FindPatient w firstID lastID kvs :
  iterators.GetStateByRange w firstID lastID = Found (map Found kvs) →
  Forall (λ kv, w !! queryresult.Key kv = Some (queryresult.Value kv)
                ∧ shim.getStateError (queryresult.Key kv) = None) kvs →
  ∃ results,
    AllPatients w firstID lastID = Found results
    ∧ map QueryResultKey results = map queryresult.Key kvs
    ∧ Forall (λ queryResult,
        FindPatient w (QueryResultKey queryResult)
        = Found (QueryResultRecord queryResult)) results.
Proof.
  intros Hit Hkvs. exists (map queryResultOf kvs). split_and!.
  - unfold AllPatients. rewrite Hit. apply allPatientsLoop_found.
  - by rewrite map_map.
  - apply Forall_map. eapply Forall_impl; [exact Hkvs |].
    intros kv [Hw He]. simpl. by apply FindPatient_stored.
Qed.

(** X4.  [AllPatients] drops the error of [json.Unmarshal]: an entry
    whose value is not a JSON document is neither skipped nor an error,
    it is listed under its key with the zero patient. *)
Theorem AllPatients_lists_values_that_are_not_JSON w firstID lastID kvs :
  iterators.GetStateByRange w firstID lastID = Found (map Found kvs) →
  Forall (λ kv, json.Valid (queryresult.Value kv) = false) kvs →
  AllPatients w firstID lastID
  = Found (map (λ kv, {| QueryResultKey := queryresult.Key kv;
                         QueryResultRecord := newPatient |}) kvs).
Proof.
  intros Hit Hkvs. unfold AllPatients. rewrite Hit, allPatientsLoop_found.
  simpl. f_equal. apply map_ext_Forall. eapply Forall_impl; [exact Hkvs |].
  intros kv Hv. unfold queryResultOf. by rewrite Unmarshal_invalid.
Qed.

(** X5.  Over a ledger whose range scan delivers the entries of the
    half-open range in ascending order of their keys and does not fail,
    [AllPatients] succeeds, the keys of its results are in strictly
    ascending order, and a key with a record is among the results
    exactly when the key is in the range and the record is what
    [json.Unmarshal] leaves of the value stored under the key.  For a
    range without keys the results are empty. *)
Theorem AllPatients_scan_in_range_ascending (w : WorldState) firstID lastID :
  ∃ results,
    AllPatients (ranges := scanning) w firstID lastID = Found results
    ∧ StronglySorted keyBefore (map QueryResultKey results)
    ∧ (∀ key patient,
        {| QueryResultKey := key; QueryResultRecord := patient |} ∈ results
        ↔ keyInRange firstID lastID key = true
          ∧ ∃ patientAsBytes,
              w !! key = Some patientAsBytes
              ∧ patient = (json.Unmarshal patientAsBytes newPatient).1)
    ∧ ((∀ key, keyInRange firstID lastID key = true → w !! key = None) →
       results = []).
Proof.
  exists (map queryResultOf (rangeScan w firstID lastID)). split_and!.
  - unfold AllPatients, scanning, iterators.GetStateByRange.
    apply allPatientsLoop_found.
  - rewrite map_map. apply rangeScan_sorted.
  - intros key patient. rewrite list_elem_of_fmap. split.
    + intros (kv & [= -> ->] & [Hr Hw]%elem_of_rangeScan). eauto.
    + intros (Hr & patientAsBytes & Hw & ->).
      exists {| queryresult.Key := key; queryresult.Value := patientAsBytes |}.
      split; [done |]. by apply elem_of_rangeScan.
  - intros Hnone. destruct (rangeScan w firstID lastID) as [|kv kvs] eqn:Hs;
      [done |].
    assert (kv ∈ rangeScan w firstID lastID) as [Hr Hw]%elem_of_rangeScan
      by (rewrite Hs; by left).
    by rewrite (Hnone _ Hr) in Hw.
Qed.

(** X6.  Over such a ledger, a patient that [CreatePatient] has stored
    under an id of the range, with field values that are valid UTF-8, is
    among the results of [AllPatients] on the world state that the call
    leaves, under its id and with the five values that were passed. *)
Theorem CreatePatient_then_AllPatients
  w id name preExistingConditions diagnosisID statusID keyID firstID lastID :
  let patient :=
    {| Name := name; PreExistingConditions := preExistingConditions;
       DiagnosisID := diagnosisID; StatusID := statusID;
       KeyID := keyID |} in
  shim.putStateError id (json.Marshal patient) = None →
  keyInRange firstID lastID id = true →
  utf8.ValidString name = true →
  utf8.ValidString preExistingConditions = true →
  utf8.ValidString diagnosisID = true →
  utf8.ValidString statusID = true →
  utf8.ValidString keyID = true →
  ∃ w' results,
    CreatePatient w id name preExistingConditions diagnosisID statusID keyID
      = (w', None)
    ∧ AllPatients (ranges := scanning) w' firstID lastID = Found results
    ∧ {| QueryResultKey := id; QueryResultRecord := patient |} ∈ results.
Proof.
  intros patient Hput Hr H1 H2 H3 H4 H5.
  exists (<[id := json.Marshal patient]> w),
    (map queryResultOf
       (rangeScan (<[id := json.Marshal patient]> w) firstID lastID)).
  split_and!.
  - unfold CreatePatient. fold patient. unfold shim.PutState.
    by rewrite Hput.
  - unfold AllPatients, scanning, iterators.GetStateByRange.
    apply allPatientsLoop_found.
  - apply list_elem_of_fmap.
    exists {| queryresult.Key := id;
              queryresult.Value := json.Marshal patient |}.
    split.
    + unfold queryResultOf. simpl. by rewrite Unmarshal_Marshal_Patient.
    + apply elem_of_rangeScan. split; [done |]. apply lookup_insert_eq.
Qed.

(** *** [UpdatePatient] *)

(** X7.  On an id with a stored value that is read without failure,
    [UpdatePatient] does what [CreatePatient] does with the same
    arguments: it assigns all five fields, so nothing of the stored
    record is kept, whatever the bytes under the id are. *)
Theorem UpdatePatient_replaces_every_field
  w id patientAsBytes name preExistingConditions diagnosisID statusID keyID :
  shim.getStateError id = None → w !! id = Some patientAsBytes →
  UpdatePatient w id name preExistingConditions diagnosisID statusID keyID
  = CreatePatient w id name preExistingConditions diagnosisID statusID keyID.
Proof.
  intros He Hw. unfold UpdatePatient, CreatePatient.
  by rewrite (FindPatient_stored w id patientAsBytes).
Qed.

(** X8.  For an id with a stored value, which the ledger reads and writes
    without failure, and field values that are valid UTF-8,
    [UpdatePatient] succeeds, [FindPatient] on that id in the world state
    it leaves returns the patient whose five fields are the values that
    were passed, and every other key holds what it held. *)
Theorem UpdatePatient_FindPatient
  w id patientAsBytes name preExistingConditions diagnosisID statusID keyID :
  let patient :=
    {| Name := name; PreExistingConditions := preExistingConditions;
       DiagnosisID := diagnosisID; StatusID := statusID;
       KeyID := keyID |} in
  w !! id = Some patientAsBytes →
  shim.getStateError id = None →
  shim.putStateError id (json.Marshal patient) = None →
  utf8.ValidString name = true →
  utf8.ValidString preExistingConditions = true →
  utf8.ValidString diagnosisID = true →
  utf8.ValidString statusID = true →
  utf8.ValidString keyID = true →
  ∃ w',
    UpdatePatient w id name preExistingConditions diagnosisID statusID keyID
      = (w', None)
    ∧ FindPatient w' id = Found patient
    ∧ ∀ k, k ≠ id → w' !! k = w !! k.
Proof.
  intros patient Hw He Hput H1 H2 H3 H4 H5.
  exists (<[id := json.Marshal patient]> w). split_and!.
  - unfold UpdatePatient. rewrite (FindPatient_stored w id patientAsBytes)
      by done.
    change (shim.PutState w id (json.Marshal patient)
            = (<[id := json.Marshal patient]> w, None)).
    unfold shim.PutState. by rewrite Hput.
  - rewrite (FindPatient_stored _ id (json.Marshal patient));
      [| done | by rewrite lookup_insert_eq].
    by rewrite Unmarshal_Marshal_Patient.
  - intros k Hk. by rewrite lookup_insert_ne.
Qed.

(** *** [CreateProposal] *)

(** X9.  When every entry of the list of patient ids is found, the
    ledger writes and reads the proposal id without failure, and the
    arguments and the mean that [phe] returns are valid UTF-8,
    [CreateProposal] succeeds, and [FindProposal] on that id in the
    world state it leaves returns the proposal made of the arguments and
    of the mean. *)
Theorem CreateProposal_FindProposal
  w id requesterID requestedID patientsIDs keyID modulo patients :
  let proposal :=
    {| RequesterID := requesterID; RequestedID := requestedID;
       PatientsIDs := patientsIDs; ProposalKeyID := keyID;
       ProposalValue :=
         phe.MeanFromString modulo (map PreExistingConditions patients) |} in
  Forall2 (λ pid patient, FindPatient w pid = Found patient)
    (strings.Split patientsIDs ",") patients →
  shim.putStateError id (json.Marshal proposal) = None →
  shim.getStateError id = None →
  utf8.ValidString requesterID = true →
  utf8.ValidString requestedID = true →
  utf8.ValidString patientsIDs = true →
  utf8.ValidString keyID = true →
  utf8.ValidString (ProposalValue proposal) = true →
  ∃ w',
    CreateProposal w id requesterID requestedID patientsIDs keyID modulo
      = (w', None)
    ∧ FindProposal w' id = Found proposal.
Proof.
  intros proposal Hfound Hput He H1 H2 H3 H4 H5.
  exists (<[id := json.Marshal proposal]> w). split.
  - rewrite (CreateProposal_found _ _ _ _ _ _ _ patients) by done.
    fold proposal. unfold shim.PutState. by rewrite Hput.
  - rewrite (FindProposal_stored _ id (json.Marshal proposal));
      [| done | by rewrite lookup_insert_eq].
    by rewrite Unmarshal_Marshal_Proposal.
Qed.

(** X10.  A call of [CreateProposal] that returns no error has found
    every entry of the list of patient ids, and the list of the patients
    is not empty: the mean is never one of no value.  The world state it
    leaves is the one before the call with the proposal of the mean of
    these patients under the proposal id. *)
Theorem CreateProposal_succeeds_only_when_all_found
  w w' id requesterID requestedID patientsIDs keyID modulo :
  CreateProposal w id requesterID requestedID patientsIDs keyID modulo
    = (w', None) →
  ∃ patients,
    patients ≠ []
    ∧ Forall2 (λ pid patient, FindPatient w pid = Found patient)
        (strings.Split patientsIDs ",") patients
    ∧ w' = <[id :=
              json.Marshal
                {| RequesterID := requesterID; RequestedID := requestedID;
                   PatientsIDs := patientsIDs; ProposalKeyID := keyID;
                   ProposalValue :=
                     phe.MeanFromString modulo
                       (map PreExistingConditions patients) |}]> w.
Proof.
  unfold CreateProposal. simpl.
  destruct (patientsValues _ _ _) as [ms | e] eqn:Hloop; [| done].
  apply patientsValues_found_inv in Hloop as (patients & Hall & ->).
  unfold shim.PutState. destruct (shim.putStateError _ _); [done |].
  intros [= <-]. exists patients. split_and!; [| done | done].
  intros ->. apply Forall2_nil_inv_r in Hall.
  by apply (Split_not_nil patientsIDs ","%char).
Qed.

(** X11.  For a list of patient ids that is not empty, none of which has
    a comma in it, all of which are found: [CreateProposal] on the ids
    joined by commas stores the proposal with the mean of the values of
    these patients, in the order of the list, when the write does not
    fail. *)
Theorem CreateProposal_of_list
  w id requesterID requestedID (ids : list string) keyID modulo patients :
  let proposal :=
    {| RequesterID := requesterID; RequestedID := requestedID;
       PatientsIDs := String.concat "," ids; ProposalKeyID := keyID;
       ProposalValue :=
         phe.MeanFromString modulo (map PreExistingConditions patients) |} in
  ids ≠ [] →
  Forall (λ pid, noComma pid = true) ids →
  Forall2 (λ pid patient, FindPatient w pid = Found patient) ids patients →
  shim.putStateError id (json.Marshal proposal) = None →
  CreateProposal w id requesterID requestedID (String.concat "," ids) keyID
    modulo
  = (<[id := json.Marshal proposal]> w, None).
Proof.
  intros proposal Hne Hids Hfound Hput.
  rewrite (CreateProposal_found _ _ _ _ _ _ _ patients).
  - fold proposal. unfold shim.PutState. by rewrite Hput.
  - by rewrite Split_of_concat.
Qed.


(** *** [CreateResult] *)

(** X13.  For a proposal id under which a proposal is found, a derived
    id that the ledger writes and reads without failure, and a proposal
    id, a key id and a new value from [phe] that are valid UTF-8,
    [CreateResult] succeeds, and [FindResult] on the derived id in the
    world state it leaves returns the result made of the proposal id,
    the key id and the new value. *)
Theorem CreateResult_FindResult
  w proposalID firstToken secondToken keyID modulo proposal :
  let result :=
    {| ProposalID := proposalID; ResultKeyID := keyID;
       ResultValue :=
         phe.KeyUpdateFromString modulo firstToken secondToken
           (ProposalValue proposal) |} in
  FindProposal w proposalID = Found proposal →
  shim.putStateError (resultID proposalID) (json.Marshal result) = None →
  shim.getStateError (resultID proposalID) = None →
  utf8.ValidString proposalID = true →
  utf8.ValidString keyID = true →
  utf8.ValidString (ResultValue result) = true →
  ∃ w',
    CreateResult w proposalID firstToken secondToken keyID modulo
      = (w', None)
    ∧ FindResult w' (resultID proposalID) = Found result.
Proof.
  intros result Hfind Hput He H1 H2 H3.
  exists (<[resultID proposalID := json.Marshal result]> w). split.
  - rewrite (CreateResult_found _ _ _ _ _ _ proposal) by done.
    fold result. unfold shim.PutState. by rewrite Hput.
  - rewrite (FindResult_stored _ _ (json.Marshal result));
      [| done | by rewrite lookup_insert_eq].
    by rewrite Unmarshal_Marshal_Result.
Qed.

(** X14.  For a proposal id without a record in the world state, whose
    read does not fail, [CreateResult] fails with [id does not exist]
    and the world state after the call is the one before it. *)
Theorem CreateResult_absent
  w proposalID firstToken secondToken keyID modulo :
  w !! proposalID = None → shim.getStateError proposalID = None →
  CreateResult w proposalID firstToken secondToken keyID modulo
  = (w, Some (doesNotExist proposalID)).
Proof.
  intros Hw He. unfold CreateResult, FindProposal, shim.GetState.
  by rewrite He, Hw.
Qed.

(** X15.  [CreateResult] on the derived id of a proposal, under which a
    value is found, writes under that same id: the derived id of a
    derived id is the id itself, so the call puts its result in the
    place of the value it has read. *)
Theorem CreateResult_on_the_key_of_a_result
  w proposalID firstToken secondToken keyID modulo stored :
  let result :=
    {| ProposalID := resultID proposalID; ResultKeyID := keyID;
       ResultValue :=
         phe.KeyUpdateFromString modulo firstToken secondToken
           (ProposalValue stored) |} in
  FindProposal w (resultID proposalID) = Found stored →
  shim.putStateError (resultID proposalID) (json.Marshal result) = None →
  CreateResult w (resultID proposalID) firstToken secondToken keyID modulo
  = (<[resultID proposalID := json.Marshal result]> w, None).
Proof.
  intros result Hfind Hput.
  rewrite (CreateResult_found _ _ _ _ _ _ stored) by done.
  fold result. rewrite resultID_resultID. unfold shim.PutState.
  by rewrite Hput.
Qed.

(** X16.  From patients to a result.  When every entry of the list of
    patient ids is found, the ledger writes and reads the proposal id
    and its derived id without failure, and the arguments and what [phe]
    returns are valid UTF-8: [CreateProposal] and then [CreateResult] on
    the same id succeed, and [FindResult] on the derived id returns the
    result whose value is [phe.KeyUpdateFromString] of the mean that
    [phe.MeanFromString] has computed from the values of the patients. *)
Theorem proposal_to_result
  w id requesterID requestedID patientsIDs keyID modulo patients
  firstToken secondToken resultKeyID resultModulo :
  let mean :=
    phe.MeanFromString modulo (map PreExistingConditions patients) in
  let newValue :=
    phe.KeyUpdateFromString resultModulo firstToken secondToken mean in
  Forall2 (λ pid patient, FindPatient w pid = Found patient)
    (strings.Split patientsIDs ",") patients →
  (∀ value, shim.putStateError id value = None) →
  (∀ value, shim.putStateError (resultID id) value = None) →
  shim.getStateError id = None →
  shim.getStateError (resultID id) = None →
  utf8.ValidString id = true →
  utf8.ValidString requesterID = true →
  utf8.ValidString requestedID = true →
  utf8.ValidString patientsIDs = true →
  utf8.ValidString keyID = true →
  utf8.ValidString resultKeyID = true →
  utf8.ValidString mean = true →
  utf8.ValidString newValue = true →
  ∃ w1 w2,
    CreateProposal w id requesterID requestedID patientsIDs keyID modulo
      = (w1, None)
    ∧ CreateResult w1 id firstToken secondToken resultKeyID resultModulo
      = (w2, None)
    ∧ FindResult w2 (resultID id)
      = Found {| ProposalID := id; ResultKeyID := resultKeyID;
                 ResultValue := newValue |}.
Proof.
  intros mean newValue Hfound Hput1 Hput2 He1 He2 Hid H1 H2 H3 H4 H5 H6 H7.
  set (proposal :=
    {| RequesterID := requesterID; RequestedID := requestedID;
       PatientsIDs := patientsIDs; ProposalKeyID := keyID;
       ProposalValue := mean |}).
  set (result :=
    {| ProposalID := id; ResultKeyID := resultKeyID;
       ResultValue := newValue |}).
  set (w1 := <[id := json.Marshal proposal]> w).
  assert (Hfind : FindProposal w1 id = Found proposal).
  { rewrite (FindProposal_stored _ id (json.Marshal proposal));
      [| done | by apply lookup_insert_eq].
    by rewrite Unmarshal_Marshal_Proposal. }
  exists w1, (<[resultID id := json.Marshal result]> w1). split_and!.
  - rewrite (CreateProposal_found _ _ _ _ _ _ _ patients) by done.
    unfold shim.PutState. by rewrite Hput1.
  - rewrite (CreateResult_found _ _ _ _ _ _ proposal) by done.
    unfold shim.PutState. by rewrite Hput2.
  - rewrite (FindResult_stored _ _ (json.Marshal result));
      [| done | by rewrite lookup_insert_eq].
    by rewrite Unmarshal_Marshal_Result.
Qed.

End Records.

(** X17.  Two proposal ids have the same derived id, so that
    [CreateResult] writes the results of both under one key, exactly
    when they have the same first digit run; an id without a digit has
    the derived id [RESULT]. *)
Theorem resultID_same_iff_same_digits first second :
  (resultID first = resultID second
   ↔ ∃ digits, firstDigitRun first digits ∧ firstDigitRun second digits)
  ∧ (allBytes (λ c, negb (isDecimalDigit c)) first = true →
     resultID first = "RESULT").
Proof.
  split; [split |].
  - intros Heq. exists (string_of_bytes (regexp.Find digitsRe first)).
    split; [apply Find_firstDigitRun |].
    apply resultID_inj_digits in Heq. unfold digitsRe. rewrite Heq.
    apply Find_firstDigitRun.
  - intros (digits & H1 & H2).
    by rewrite (resultID_firstDigitRun _ _ H1),
      (resultID_firstDigitRun _ _ H2).
  - intros Hnone. rewrite (resultID_firstDigitRun first EmptyString).
    + by rewrite append_nil_r.
    + exists first, EmptyString. rewrite append_nil_l, append_nil_r.
      by split_and!.
Qed.

(** ** The properties on examples *)

(** C1 on the ids [s1,zz,s2], of which [zz] has no record. *)
Lemma CreateProposal_missing_patient_witness :
  ∃ pre pid post err,
    strings.Split "s1,zz,s2" "," = pre ++ pid :: post
    ∧ Forall (λ p, ∃ patient,
                FindPatient (ledger := fabric) threePatients p
                = Found patient) pre
    ∧ FindPatient (ledger := fabric) threePatients pid = Failed err
    ∧ (shim.getStateError (Failures := fabric) pid = None →
       err = doesNotExist pid)
    ∧ CreateProposal (crypto := recording) (ledger := fabric) threePatients
        "P1" "alice" "bob" "s1,zz,s2" "k" "m"
      = (threePatients, Some err)
    ∧ (threePatients !! "P1" = None →
       (CreateProposal (crypto := recording) (ledger := fabric)
          threePatients "P1" "alice" "bob" "s1,zz,s2" "k" "m").1 !! "P1"
       = None).
Proof.
  apply (CreateProposal_missing_patient (crypto := recording)
           (ledger := fabric)).
  exists "zz". split; [| reflexivity].
  vm_compute. repeat constructor.
Defined.

(** C2 on the proposal id [P7x2]: the result is stored under
    [RESULT7]. *)
Lemma CreateResult_stores_at_derived_id_witness :
  CreateResult (crypto := recording) (ledger := fabric) threeProposals
    "P7x2" "tokenA" "tokenB" "k2" "m"
  = (<["RESULT7" :=
        json.Marshal
          {| ProposalID := "P7x2"; ResultKeyID := "k2";
             ResultValue := "update(m;tokenA;tokenB;vA)" |}]> threeProposals,
     None)
  ∧ ∃ digits,
      firstDigitRun "P7x2" digits ∧ resultID "P7x2" = "RESULT" +:+ digits.
Proof.
  apply (CreateResult_stores_at_derived_id (crypto := recording)
           (ledger := fabric) threeProposals "P7x2" "tokenA" "tokenB" "k2"
           "m" proposalA); reflexivity.
Defined.

(** C3 as amended, on bytes that are not a JSON document. *)
Lemma Find_returns_what_Unmarshal_leaves_witness :
  FindPatient (ledger := fabric) unparseable "p1"
    = Found (json.Unmarshal "not json" newPatient).1
  ∧ FindProposal (ledger := fabric) unparseable "p1"
    = Found (json.Unmarshal "not json" newProposal).1
  ∧ FindResult (ledger := fabric) unparseable "p1"
    = Found (json.Unmarshal "not json" newResult).1
  ∧ (json.Valid "not json" = false →
     FindPatient (ledger := fabric) unparseable "p1" = Found newPatient
     ∧ FindProposal (ledger := fabric) unparseable "p1" = Found newProposal
     ∧ FindResult (ledger := fabric) unparseable "p1" = Found newResult).
Proof.
  apply (Find_returns_what_Unmarshal_leaves (ledger := fabric)); reflexivity.
Defined.

(** C3 as stated fails: the bytes stored under [p1] are not a JSON
    document and those under [p2] are an array; [json.Unmarshal] reports
    a syntax error on the first and a type error on the second, and the
    three functions return the zero value and no error on both. *)
Lemma Find_succeeds_on_unparseable_bytes :
  json.Unmarshal "not json" newPatient = (newPatient, Some json.SyntaxError)
  ∧ json.Unmarshal "[]" newPatient
    = (newPatient, Some json.UnmarshalTypeError)
  ∧ FindPatient (ledger := fabric) unparseable "p1" = Found newPatient
  ∧ FindProposal (ledger := fabric) unparseable "p1" = Found newProposal
  ∧ FindResult (ledger := fabric) unparseable "p1" = Found newResult
  ∧ FindPatient (ledger := fabric) unparseable "p2" = Found newPatient
  ∧ FindProposal (ledger := fabric) unparseable "p2" = Found newProposal
  ∧ FindResult (ledger := fabric) unparseable "p2" = Found newResult.
Proof. by vm_compute. Qed.

(** C4 on three patients with the values [c1], [c2], [c3]. *)
Lemma CreateProposal_stores_mean_witness :
  patientsValues (ledger := fabric) threePatients
    (strings.Split "s1,s2,s3" ",") [] = Found ["c1"; "c2"; "c3"]
  ∧ CreateProposal (crypto := recording) (ledger := fabric) threePatients
      "P1" "alice" "bob" "s1,s2,s3" "k" "m"
    = (<["P1" := json.Marshal
           {| RequesterID := "alice"; RequestedID := "bob";
              PatientsIDs := "s1,s2,s3"; ProposalKeyID := "k";
              ProposalValue := "mean(m;c1;c2;c3;)" |}]> threePatients, None).
Proof.
  apply (CreateProposal_stores_mean (crypto := recording) (ledger := fabric)
           threePatients "P1" "alice" "bob" "s1,s2,s3" "k" "m"
           [ann; bob; cyd]).
  - repeat constructor.
  - reflexivity.
Defined.

(** C5 as amended, on the proposal stored under [P7]. *)
Lemma stored_Proposal_changes_by_write_at_its_key_witness :
  (∀ inv, writtenKey inv ≠ "P7" →
     (invoke (crypto := recording) (ledger := fabric) inv threeProposals).1
       !! "P7" = Some (json.Marshal proposalA))
  ∧ (∀ inv err,
       (invoke (crypto := recording) (ledger := fabric) inv threeProposals).2
         = Some err →
       (invoke (crypto := recording) (ledger := fabric) inv threeProposals).1
         !! "P7" = Some (json.Marshal proposalA))
  ∧ (∀ requesterID requestedID patientsIDs keyID modulo patients,
       let proposal :=
         {| RequesterID := requesterID; RequestedID := requestedID;
            PatientsIDs := patientsIDs; ProposalKeyID := keyID;
            ProposalValue :=
              phe.MeanFromString (Lib := recording) modulo
                (map PreExistingConditions patients) |} in
       Forall2 (λ pid patient,
                  FindPatient (ledger := fabric) threeProposals pid
                  = Found patient)
         (strings.Split patientsIDs ",") patients →
       shim.putStateError (Failures := fabric) "P7" (json.Marshal proposal)
         = None →
       (CreateProposal (crypto := recording) (ledger := fabric)
          threeProposals "P7" requesterID requestedID patientsIDs keyID
          modulo).1 !! "P7" = Some (json.Marshal proposal)).
Proof.
  apply (stored_Proposal_changes_by_write_at_its_key (crypto := recording)
           (ledger := fabric) threeProposals "P7" (json.Marshal proposalA)).
  reflexivity.
Defined.

(** C5 as stated fails: after [CreateProposal] has stored a proposal
    under [P1], a second [CreateProposal] with the same id computes a
    mean again and the proposal stored under [P1] is another one. *)
Lemma CreateProposal_again_changes_the_Proposal :
  let w1 :=
    (CreateProposal (crypto := recording) (ledger := fabric) threePatients
       "P1" "alice" "bob" "s1,s2" "k" "m").1 in
  let w2 :=
    (CreateProposal (crypto := recording) (ledger := fabric) w1
       "P1" "carol" "dave" "s3" "k" "m").1 in
  FindProposal (ledger := fabric) w1 "P1"
    = Found {| RequesterID := "alice"; RequestedID := "bob";
               PatientsIDs := "s1,s2"; ProposalKeyID := "k";
               ProposalValue := "mean(m;c1;c2;)" |}
  ∧ FindProposal (ledger := fabric) w2 "P1"
    = Found {| RequesterID := "carol"; RequestedID := "dave";
               PatientsIDs := "s3"; ProposalKeyID := "k";
               ProposalValue := "mean(m;c3;)" |}.
Proof. by vm_compute. Qed.

(** C6 as amended, on a call that fails: its error is [zz does not
    exist], for the patient id [zz]. *)
Lemma errors_come_from_the_ledger_witness :
  (∃ pid e, pid ∈ strings.Split "s1,zz" ","
            ∧ shim.getStateError (Failures := fabric) pid = Some e
            ∧ "zz does not exist" = readFailed e)
  ∨ (∃ pid, pid ∈ strings.Split "s1,zz" ","
            ∧ threePatients !! pid = None
            ∧ "zz does not exist" = doesNotExist pid)
  ∨ (∃ value, shim.putStateError (Failures := fabric) "P1" value
              = Some "zz does not exist").
Proof.
  apply (proj1 (errors_come_from_the_ledger (crypto := recording)
                  (ledger := fabric) threePatients)
           "P1" "alice" "bob" "s1,zz" "k" "m" "zz does not exist").
  reflexivity.
Defined.

(** C6 as stated fails: with functions of [phe] that have nothing to
    return for a modulus and tokens that are none, [CreateProposal] and
    [CreateResult] return no error and store the empty value. *)
Lemma no_error_when_the_oracle_returns_nothing :
  CreateProposal (crypto := silent) (ledger := fabric) threePatients
    "P1" "alice" "bob" "s1,s2" "k" "not a modulus"
  = (<["P1" := json.Marshal
         {| RequesterID := "alice"; RequestedID := "bob";
            PatientsIDs := "s1,s2"; ProposalKeyID := "k";
            ProposalValue := "" |}]> threePatients, None)
  ∧ CreateResult (crypto := silent) (ledger := fabric) threeProposals
      "P7" "stale" "tokens" "k2" "not a modulus"
    = (<["RESULT7" := json.Marshal
           {| ProposalID := "P7"; ResultKeyID := "k2";
              ResultValue := "" |}]> threeProposals, None).
Proof. split; reflexivity. Qed.

(** C7 on the proposal ids [P7] and [X7y]. *)
Lemma CreateResult_same_digits_last_write_wins_witness :
  ∃ w1 w2 proposal1 proposal2,
    CreateResult (crypto := recording) (ledger := fabric) threeProposals
      "P7" "tokenA" "tokenB" "k2" "m" = (w1, None)
    ∧ CreateResult (crypto := recording) (ledger := fabric) w1
        "X7y" "tokenC" "tokenD" "k3" "m" = (w2, None)
    ∧ resultID "P7" = "RESULT" +:+ "7"
    ∧ resultID "X7y" = "RESULT" +:+ "7"
    ∧ FindProposal (ledger := fabric) threeProposals "P7" = Found proposal1
    ∧ FindProposal (ledger := fabric) w1 "X7y" = Found proposal2
    ∧ w1 !! ("RESULT" +:+ "7")
      = Some (json.Marshal
                {| ProposalID := "P7"; ResultKeyID := "k2";
                   ResultValue :=
                     phe.KeyUpdateFromString (Lib := recording) "m" "tokenA"
                       "tokenB" (ProposalValue proposal1) |})
    ∧ w2 !! ("RESULT" +:+ "7")
      = Some (json.Marshal
                {| ProposalID := "X7y"; ResultKeyID := "k3";
                   ResultValue :=
                     phe.KeyUpdateFromString (Lib := recording) "m" "tokenC"
                       "tokenD" (ProposalValue proposal2) |}).
Proof.
  apply (CreateResult_same_digits_last_write_wins (crypto := recording)
           (ledger := fabric) threeProposals "7" "P7" "X7y"
           (json.Marshal proposalA) (json.Marshal proposalB));
    try reflexivity.
  - exists "P", EmptyString. by split_and!.
  - exists "X", "y". by split_and!.
Defined.

(** C8 on a new patient. *)
Lemma CreatePatient_FindPatient_witness :
  ∃ w',
    CreatePatient (ledger := fabric) threePatients "s4" "Dee" "c4" "d4" "st4"
      "k" = (w', None)
    ∧ FindPatient (ledger := fabric) w' "s4"
      = Found {| Name := "Dee"; PreExistingConditions := "c4";
                 DiagnosisID := "d4"; StatusID := "st4"; KeyID := "k" |}.
Proof.
  apply (CreatePatient_FindPatient (ledger := fabric)); reflexivity.
Defined.

(** C9 on an id that is not in the world state. *)
Lemma UpdatePatient_absent_witness :
  UpdatePatient (ledger := fabric) threePatients "p9" "Ann" "c" "d" "s" "k"
  = (threePatients, Some "p9 does not exist").
Proof.
  apply (UpdatePatient_absent (ledger := fabric)); reflexivity.
Defined.

(** C10 on a call of [CreateResult], which writes under [RESULT7]: the
    proposal under [P7] reads as before. *)
Lemma invoke_writes_one_key_witness :
  (invoke (crypto := recording) (ledger := fabric)
     (InvokeCreateResult "P7" "tokenA" "tokenB" "k2" "m") threeProposals).1
    !! "P7" = threeProposals !! "P7".
Proof.
  apply (proj2 (invoke_writes_one_key (crypto := recording) (ledger := fabric)
                  (InvokeCreateResult "P7" "tokenA" "tokenB" "k2" "m")
                  threeProposals)).
  discriminate.
Defined.

(** A value that is not valid UTF-8 does not come back as it was
    stored: the encoder writes the replacement character for the byte
    [0xFF]. *)
Example CreatePatient_FindPatient_invalid_UTF8 :
  let name := String (of_byte 0xFF) EmptyString in
  utf8.ValidString name = false
  ∧ FindPatient (ledger := fabric)
      (CreatePatient (ledger := fabric) ∅ "s1" name "c" "d" "s" "k").1 "s1"
    = Found {| Name := utf8.EncodeRune utf8.RuneError;
               PreExistingConditions := "c"; DiagnosisID := "d";
               StatusID := "s"; KeyID := "k" |}.
Proof. by vm_compute. Qed.

(** ** More properties on examples *)

(** X1 on the range from [s1] to [s3] of the three patients. *)
Lemma AllPatients_lists_the_iterator_witness :
  AllPatients (ranges := scanning) threePatients "s1" "s3"
  = Found [ {| QueryResultKey := "s1"; QueryResultRecord := ann |};
            {| QueryResultKey := "s2"; QueryResultRecord := bob |} ].
Proof.
  apply (proj2 (AllPatients_lists_the_iterator (ranges := scanning)
                  threePatients "s1" "s3" _)).
  exists [ {| queryresult.Key := "s1";
              queryresult.Value := json.Marshal ann |};
           {| queryresult.Key := "s2";
              queryresult.Value := json.Marshal bob |} ].
  split; reflexivity.
Defined.

(** X2 on an iterator that fails at its second call of [Next]. *)
Lemma AllPatients_fails_at_the_first_failure_witness :
  AllPatients (ranges := interrupted) threePatients "s1" "s4"
  = Failed "iterator is closed".
Proof.
  apply (proj2 (AllPatients_fails_at_the_first_failure
                  (ranges := interrupted) threePatients "s1" "s4" _)).
  right.
  exists [ {| queryresult.Key := "s1";
              queryresult.Value := json.Marshal ann |} ], [].
  reflexivity.
Defined.

(** X3 on the range from [s1] to [s3] of the three patients. *)
Lemma AllPatients_agrees_with_FindPatient_witness :
  ∃ results,
    AllPatients (ranges := scanning) threePatients "s1" "s3" = Found results
    ∧ map QueryResultKey results = ["s1"; "s2"]
    ∧ Forall (λ queryResult,
        FindPatient (ledger := fabric) threePatients
          (QueryResultKey queryResult)
        = Found (QueryResultRecord queryResult)) results.
Proof.
  apply (AllPatients_agrees_with_FindPatient (ledger := fabric)
           (ranges := scanning) threePatients "s1" "s3"
           [ {| queryresult.Key := "s1";
                queryresult.Value := json.Marshal ann |};
             {| queryresult.Key := "s2";
                queryresult.Value := json.Marshal bob |} ]).
  - reflexivity.
  - repeat constructor.
Defined.

(** X4 on the bytes under [p1], which are not a JSON document. *)
Lemma AllPatients_lists_values_that_are_not_JSON_witness :
  AllPatients (ranges := scanning) unparseable "p1" "p2"
  = Found [ {| QueryResultKey := "p1"; QueryResultRecord := newPatient |} ].
Proof.
  apply (AllPatients_lists_values_that_are_not_JSON (ranges := scanning)
           unparseable "p1" "p2"
           [ {| queryresult.Key := "p1";
                queryresult.Value := "not json" |} ]).
  - reflexivity.
  - repeat constructor.
Defined.

(** X6 on a new patient [s4] and the range from [s2] to [s5]. *)
Lemma CreatePatient_then_AllPatients_witness :
  ∃ w' results,
    CreatePatient (ledger := fabric) threePatients "s4" "Dee" "c4" "d4" "st4"
      "k" = (w', None)
    ∧ AllPatients (ranges := scanning) w' "s2" "s5" = Found results
    ∧ {| QueryResultKey := "s4";
         QueryResultRecord :=
           {| Name := "Dee"; PreExistingConditions := "c4";
              DiagnosisID := "d4"; StatusID := "st4"; KeyID := "k" |} |}
      ∈ results.
Proof.
  apply (CreatePatient_then_AllPatients (ledger := fabric)); reflexivity.
Defined.

(** X7 on the stored patient [s1]. *)
Lemma UpdatePatient_replaces_every_field_witness :
  UpdatePatient (ledger := fabric) threePatients "s1" "Dee" "c4" "d4" "st4"
    "k4"
  = CreatePatient (ledger := fabric) threePatients "s1" "Dee" "c4" "d4" "st4"
      "k4".
Proof.
  apply (UpdatePatient_replaces_every_field (ledger := fabric) threePatients
           "s1" (json.Marshal ann)); reflexivity.
Defined.

(** X8 on the stored patient [s1]. *)
Lemma UpdatePatient_FindPatient_witness :
  ∃ w',
    UpdatePatient (ledger := fabric) threePatients "s1" "Dee" "c4" "d4" "st4"
      "k4" = (w', None)
    ∧ FindPatient (ledger := fabric) w' "s1"
      = Found {| Name := "Dee"; PreExistingConditions := "c4";
                 DiagnosisID := "d4"; StatusID := "st4"; KeyID := "k4" |}
    ∧ ∀ k, k ≠ "s1" → w' !! k = threePatients !! k.
Proof.
  apply (UpdatePatient_FindPatient (ledger := fabric) threePatients "s1"
           (json.Marshal ann)); reflexivity.
Defined.

(** X9 on a proposal over the patients [s1] and [s2]. *)
Lemma CreateProposal_FindProposal_witness :
  ∃ w',
    CreateProposal (crypto := recording) (ledger := fabric) threePatients
      "P1" "alice" "bob" "s1,s2" "k" "m" = (w', None)
    ∧ FindProposal (ledger := fabric) w' "P1"
      = Found {| RequesterID := "alice"; RequestedID := "bob";
                 PatientsIDs := "s1,s2"; ProposalKeyID := "k";
                 ProposalValue := "mean(m;c1;c2;)" |}.
Proof.
  apply (CreateProposal_FindProposal (crypto := recording) (ledger := fabric)
           threePatients "P1" "alice" "bob" "s1,s2" "k" "m" [ann; bob]);
    try reflexivity.
  repeat constructor.
Defined.

(** X10 on a call that has stored a proposal over [s1] and [s2]. *)
Lemma CreateProposal_succeeds_only_when_all_found_witness :
  ∃ patients,
    patients ≠ []
    ∧ Forall2 (λ pid patient,
                 FindPatient (ledger := fabric) threePatients pid
                 = Found patient)
        (strings.Split "s1,s2" ",") patients
    ∧ <["P1" := json.Marshal
          {| RequesterID := "alice"; RequestedID := "bob";
             PatientsIDs := "s1,s2"; ProposalKeyID := "k";
             ProposalValue := "mean(m;c1;c2;)" |}]> threePatients
      = <["P1" :=
           json.Marshal
             {| RequesterID := "alice"; RequestedID := "bob";
                PatientsIDs := "s1,s2"; ProposalKeyID := "k";
                ProposalValue :=
                  phe.MeanFromString (Lib := recording) "m"
                    (map PreExistingConditions patients) |}]> threePatients.
Proof.
  apply (CreateProposal_succeeds_only_when_all_found (crypto := recording)
           (ledger := fabric) threePatients).
  reflexivity.
Defined.

(** X11 on the list of the ids [s1], [s2] and [s3]. *)
Lemma CreateProposal_of_list_witness :
  CreateProposal (crypto := recording) (ledger := fabric) threePatients
    "P1" "alice" "bob" (String.concat "," ["s1"; "s2"; "s3"]) "k" "m"
  = (<["P1" := json.Marshal
         {| RequesterID := "alice"; RequestedID := "bob";
            PatientsIDs := "s1,s2,s3"; ProposalKeyID := "k";
            ProposalValue := "mean(m;c1;c2;c3;)" |}]> threePatients, None).
Proof.
  apply (CreateProposal_of_list (crypto := recording) (ledger := fabric)
           threePatients "P1" "alice" "bob" ["s1"; "s2"; "s3"] "k" "m"
           [ann; bob; cyd]).
  - discriminate.
  - repeat constructor.
  - repeat constructor.
  - reflexivity.
Defined.


(** X13 on the proposal id [P7x2]. *)
Lemma CreateResult_FindResult_witness :
  ∃ w',
    CreateResult (crypto := recording) (ledger := fabric) threeProposals
      "P7x2" "tokenA" "tokenB" "k2" "m" = (w', None)
    ∧ FindResult (ledger := fabric) w' (resultID "P7x2")
      = Found {| ProposalID := "P7x2"; ResultKeyID := "k2";
                 ResultValue := "update(m;tokenA;tokenB;vA)" |}.
Proof.
  apply (CreateResult_FindResult (crypto := recording) (ledger := fabric)
           threeProposals "P7x2" "tokenA" "tokenB" "k2" "m" proposalA);
    reflexivity.
Defined.

(** X14 on a proposal id that is not in the world state. *)
Lemma CreateResult_absent_witness :
  CreateResult (crypto := recording) (ledger := fabric) threeProposals
    "Q1" "tokenA" "tokenB" "k2" "m"
  = (threeProposals, Some "Q1 does not exist").
Proof.
  apply (CreateResult_absent (crypto := recording) (ledger := fabric));
    reflexivity.
Defined.

(** X15 on the result of [P7], stored under [RESULT7]: a call of
    [CreateResult] with that id reads the result as a proposal and
    writes another result in its place. *)
Lemma CreateResult_on_the_key_of_a_result_witness :
  let w :=
    (CreateResult (crypto := recording) (ledger := fabric) threeProposals
       "P7" "tokenA" "tokenB" "k2" "m").1 in
  CreateResult (crypto := recording) (ledger := fabric) w
    (resultID "P7") "tokenC" "tokenD" "k3" "m"
  = (<[resultID "P7" :=
        json.Marshal
          {| ProposalID := "RESULT7"; ResultKeyID := "k3";
             ResultValue :=
               "update(m;tokenC;tokenD;update(m;tokenA;tokenB;vA))" |}]> w,
     None).
Proof.
  apply (CreateResult_on_the_key_of_a_result (crypto := recording)
           (ledger := fabric) _ "P7" "tokenC" "tokenD" "k3" "m"
           {| RequesterID := ""; RequestedID := ""; PatientsIDs := "";
              ProposalKeyID := "k2";
              ProposalValue := "update(m;tokenA;tokenB;vA)" |});
    reflexivity.
Defined.

(** X16 on a proposal over [s1] and [s2] and its result. *)
Lemma proposal_to_result_witness :
  ∃ w1 w2,
    CreateProposal (crypto := recording) (ledger := fabric) threePatients
      "P1" "alice" "bob" "s1,s2" "k" "m" = (w1, None)
    ∧ CreateResult (crypto := recording) (ledger := fabric) w1
        "P1" "tokenA" "tokenB" "k2" "m2" = (w2, None)
    ∧ FindResult (ledger := fabric) w2 (resultID "P1")
      = Found {| ProposalID := "P1"; ResultKeyID := "k2";
                 ResultValue :=
                   "update(m2;tokenA;tokenB;mean(m;c1;c2;))" |}.
Proof.
  apply (proposal_to_result (crypto := recording) (ledger := fabric)
           threePatients "P1" "alice" "bob" "s1,s2" "k" "m" [ann; bob]
           "tokenA" "tokenB" "k2" "m2"); try reflexivity.
  repeat constructor.
Defined.

(** X17 on the proposal ids [P7] and [X7y]. *)
Lemma resultID_same_iff_same_digits_witness :
  resultID "P7" = resultID "X7y".
Proof.
  apply (proj2 (proj1 (resultID_same_iff_same_digits "P7" "X7y"))).
  exists "7". split.
  - exists "P", EmptyString. by split_and!.
  - exists "X", "y". by split_and!.
Defined.
